(** * SparkScraper: the idea processing pipeline of [sparkscraper_enhanced.py]

    A shallow embedding of [IdeaProcessor] (text normalisation, duplicate
    detection, categorisation, sentiment, quality filter, batch processing)
    and of the parts of [SparkScraperConfig] it reads.

    Python's [str] is modelled on the Latin-1 repertoire: a character is a
    code point below 256 (Rocq's [ascii]) and a string is [string].  The
    character classes ([str.isspace], [str.isalnum], [str.lower], the regular
    expression classes [\w] and [\s]) are the ones CPython uses on these code
    points. *)

From Stdlib Require Import ZArith QArith Ascii List Lia.
From stdpp Require Import gmap strings pretty.

Local Open Scope Z_scope.

(** ** Strings as lists of characters *)

Abbreviation chars := Stdlib.Strings.String.list_ascii_of_string.
Abbreviation of_chars := Stdlib.Strings.String.string_of_list_ascii.

Definition code (c : ascii) : Z := Z.of_N (N_of_ascii c).

Definition chr (n : Z) : ascii := ascii_of_N (Z.to_N n).

Definition in_range (lo hi : Z) (c : ascii) : bool :=
  (lo <=? code c) && (code c <=? hi).

Definition one_of (set : string) (c : ascii) : bool :=
  bool_decide (c ∈ chars set).

(** ** Character classes of CPython on code points 0..255 *)

Module Unicode.

(** [Py_UNICODE_ISSPACE]: used by [str.split], [str.strip] and by [\s]. *)
Definition isspace (c : ascii) : bool :=
  in_range 9 13 c || in_range 28 32 c
  || (code c =? 133) || (code c =? 160).

(** [Py_UNICODE_ISALNUM]: alphabetic, decimal, digit or numeric. *)
Definition isalnum (c : ascii) : bool :=
  in_range 48 57 c || in_range 65 90 c || in_range 97 122 c
  || (code c =? 170) || in_range 178 179 c || (code c =? 181)
  || in_range 185 186 c || in_range 188 190 c
  || in_range 192 214 c || in_range 216 246 c || in_range 248 255 c.

(** The class [\w] of a [str] pattern: alphanumeric or underscore. *)
Definition isword (c : ascii) : bool :=
  isalnum c || (code c =? 95).

(** [str.lower] on one character: A-Z and the Latin-1 capitals. *)
Definition tolower (c : ascii) : ascii :=
  if in_range 65 90 c || in_range 192 214 c || in_range 216 222 c
  then chr (code c + 32)
  else c.

End Unicode.

Definition lower (s : string) : string :=
  of_chars (map Unicode.tolower (chars s)).

(** ** [str.split()], [sep.join], [str.strip()] *)

(** [split_go cur s]: the scan of [str.split()] with no separator; [cur] is
    the word being read, latest character first. *)
Fixpoint split_go (cur : list ascii) (s : list ascii) : list (list ascii) :=
  match s with
  | [] => match cur with [] => [] | _ => [rev cur] end
  | c :: r =>
      if Unicode.isspace c
      then match cur with
           | [] => split_go [] r
           | _ => rev cur :: split_go [] r
           end
      else split_go (c :: cur) r
  end.

Definition split_chars (s : list ascii) : list (list ascii) := split_go [] s.

Definition split (s : string) : list string :=
  map of_chars (split_chars (chars s)).

Fixpoint join_chars (sep : list ascii) (ws : list (list ascii)) : list ascii :=
  match ws with
  | [] => []
  | [w] => w
  | w :: ws' => w ++ sep ++ join_chars sep ws'
  end.

Definition join (sep : string) (ws : list string) : string :=
  of_chars (join_chars (chars sep) (map chars ws)).

Fixpoint lstrip_chars (s : list ascii) : list ascii :=
  match s with
  | c :: r => if Unicode.isspace c then lstrip_chars r else s
  | [] => []
  end.

Definition strip_chars (s : list ascii) : list ascii :=
  rev (lstrip_chars (rev (lstrip_chars s))).

Definition strip (s : string) : string := of_chars (strip_chars (chars s)).

(** [needle in hay] on strings. *)
Fixpoint starts_with (p s : list ascii) : bool :=
  match p, s with
  | [], _ => true
  | a :: p', b :: s' => bool_decide (a = b) && starts_with p' s'
  | _ :: _, [] => false
  end.

Fixpoint contains_chars (needle hay : list ascii) : bool :=
  starts_with needle hay
  || match hay with
     | [] => false
     | _ :: hay' => contains_chars needle hay'
     end.

Definition contains (needle hay : string) : bool :=
  contains_chars (chars needle) (chars hay).

(** ** The two regular expressions of [clean_text] *)

Module Re.

Definition hexdigit (c : ascii) : bool :=
  in_range 48 57 c || in_range 97 102 c || in_range 65 70 c.

(** One step of the group
    [(?:[a-zA-Z]|[0-9]|[$-_@.&+]|[!*\\(\\),]|(?:%[0-9a-fA-F][0-9a-fA-F]))],
    alternatives tried left to right; the result is the unread rest. *)
Definition url_alt (s : list ascii) : option (list ascii) :=
  match s with
  | [] => None
  | c :: r =>
      if in_range 97 122 c || in_range 65 90 c then Some r
      else if in_range 48 57 c then Some r
      else if in_range 36 95 c || one_of "@.&+" c then Some r
      else if one_of "!*\(\)," c then Some r
      else match s with
           | p :: h1 :: h2 :: r' =>
               if (code p =? 37) && hexdigit h1 && hexdigit h2
               then Some r' else None
           | _ => None
           end
  end.

Fixpoint literal (p s : list ascii) : option (list ascii) :=
  match p, s with
  | [], _ => Some s
  | a :: p', b :: s' => if bool_decide (a = b) then literal p' s' else None
  | _ :: _, [] => None
  end.

(** The greedy [(...)+]: steps of the group while one applies, and the number
    of characters read. Nothing follows the group in the pattern, so the
    longest run is the match. A step reads at least one character: [fuel]
    the length of [s] is enough. *)
Fixpoint url_steps (fuel : nat) (s : list ascii) : nat :=
  match fuel with
  | O => 0%nat
  | S fuel' =>
      match url_alt s with
      | Some r => (length s - length r + url_steps fuel' r)%nat
      | None => 0%nat
      end
  end.

(** The tail [://(...)+] of the pattern; the length matched. *)
Definition url_tail (s : list ascii) : option nat :=
  match literal (chars "://") s with
  | Some r =>
      match url_steps (length r) r with
      | O => None
      | n => Some (3 + n)%nat
      end
  | None => None
  end.

(** [http[s]?://(...)+] anchored at the head of [s]: the length matched.
    [[s]?] is greedy and gives the [s] back when the tail fails. *)
Definition url_match (s : list ascii) : option nat :=
  match literal (chars "http") s with
  | Some r =>
      let without_s := (Nat.add 4) <$> url_tail r in
      match r with
      | c :: r' =>
          if bool_decide (c = "s"%char)
          then match url_tail r' with
               | Some n => Some (5 + n)%nat
               | None => without_s
               end
          else without_s
      | [] => without_s
      end
  | None => None
  end.

(** [re.sub(url, '', s)]: leftmost matches, left to right, each removed;
    [skip] counts the characters of the current match still to drop. *)
Fixpoint sub_url_go (skip : nat) (s : list ascii) : list ascii :=
  match s with
  | [] => []
  | c :: r =>
      match skip with
      | S k => sub_url_go k r
      | O =>
          match url_match s with
          | Some (S k) => sub_url_go k r
          | _ => c :: sub_url_go 0 r
          end
      end
  end.

Definition sub_url (s : list ascii) : list ascii := sub_url_go 0 s.

(** The complement of the class [[^\w\s\.\!\?\-]]: what the second
    substitution keeps. *)
Definition kept (c : ascii) : bool :=
  Unicode.isword c || Unicode.isspace c || one_of ".!?-" c.

Definition sub_special (s : list ascii) : list ascii := List.filter kept s.

End Re.

(** ** [IdeaProcessor.clean_text] *)

Definition clean_text (text : string) : string :=
  let text := of_chars (Re.sub_url (chars text)) in
  let text := of_chars (Re.sub_special (chars text)) in
  let text := join " " (split text) in
  strip text.

(** ** [str.encode()] and [hashlib.md5(...).hexdigest()] *)

(** UTF-8 of a code point below 256: one byte, or two from 128 on. *)
Definition encode_char (c : ascii) : list Z :=
  if code c <? 128 then [code c]
  else [Z.lor 192 (Z.shiftr (code c) 6); Z.lor 128 (Z.land (code c) 63)].

Definition str_encode (s : string) : list Z :=
  flat_map encode_char (chars s).

Module MD5.

Definition w32 (x : Z) : Z := Z.land x 0xFFFFFFFF.
Definition add32 (a b : Z) : Z := w32 (a + b).
Definition not32 (a : Z) : Z := Z.lxor a 0xFFFFFFFF.
Definition rotl32 (x n : Z) : Z :=
  Z.lor (w32 (Z.shiftl x n)) (Z.shiftr x (32 - n)).

Definition shifts : list Z :=
  [7; 12; 17; 22; 7; 12; 17; 22; 7; 12; 17; 22; 7; 12; 17; 22;
   5; 9; 14; 20; 5; 9; 14; 20; 5; 9; 14; 20; 5; 9; 14; 20;
   4; 11; 16; 23; 4; 11; 16; 23; 4; 11; 16; 23; 4; 11; 16; 23;
   6; 10; 15; 21; 6; 10; 15; 21; 6; 10; 15; 21; 6; 10; 15; 21].

Definition sines : list Z :=
  [0xd76aa478; 0xe8c7b756; 0x242070db; 0xc1bdceee;
   0xf57c0faf; 0x4787c62a; 0xa8304613; 0xfd469501;
   0x698098d8; 0x8b44f7af; 0xffff5bb1; 0x895cd7be;
   0x6b901122; 0xfd987193; 0xa679438e; 0x49b40821;
   0xf61e2562; 0xc040b340; 0x265e5a51; 0xe9b6c7aa;
   0xd62f105d; 0x02441453; 0xd8a1e681; 0xe7d3fbc8;
   0x21e1cde6; 0xc33707d6; 0xf4d50d87; 0x455a14ed;
   0xa9e3e905; 0xfcefa3f8; 0x676f02d9; 0x8d2a4c8a;
   0xfffa3942; 0x8771f681; 0x6d9d6122; 0xfde5380c;
   0xa4beea44; 0x4bdecfa9; 0xf6bb4b60; 0xbebfbc70;
   0x289b7ec6; 0xeaa127fa; 0xd4ef3085; 0x04881d05;
   0xd9d4d039; 0xe6db99e5; 0x1fa27cf8; 0xc4ac5665;
   0xf4292244; 0x432aff97; 0xab9423a7; 0xfc93a039;
   0x655b59c3; 0x8f0ccc92; 0xffeff47d; 0x85845dd1;
   0x6fa87e4f; 0xfe2ce6e0; 0xa3014314; 0x4e0811a1;
   0xf7537e82; 0xbd3af235; 0x2ad7d2bb; 0xeb86d391].

(** Little-endian bytes of a word, and back. *)
Fixpoint le_bytes (n : nat) (x : Z) : list Z :=
  match n with
  | O => []
  | S n' => Z.land x 255 :: le_bytes n' (Z.shiftr x 8)
  end.

Fixpoint le_word (bs : list Z) : Z :=
  match bs with
  | [] => 0
  | b :: bs' => Z.lor b (Z.shiftl (le_word bs') 8)
  end.

(** The message, the bit 1, zeros up to 56 modulo 64, the bit length. *)
Definition pad (msg : list Z) : list Z :=
  let len := Z.of_nat (length msg) in
  let zeros := Z.to_nat ((55 - len) mod 64) in
  msg ++ [128] ++ repeat 0 zeros ++ le_bytes 8 (8 * len).

Fixpoint chunks (n : nat) (fuel : nat) (bs : list Z) : list (list Z) :=
  match fuel, bs with
  | _, [] => []
  | O, _ => []
  | S fuel', _ => take n bs :: chunks n fuel' (drop n bs)
  end.

Definition words (block : list Z) : list Z :=
  le_word <$> chunks 4 16 block.

Record state := State { sa : Z; sb : Z; sc : Z; sd : Z }.

Definition init : state :=
  State 0x67452301 0xefcdab89 0x98badcfe 0x10325476.

Definition step (m : list Z) (st : state) (i : nat) : state :=
  let '(State a b c d) := st in
  let iz := Z.of_nat i in
  let '(f, g) :=
    match (i / 16)%nat with
    | 0%nat => (Z.lor (Z.land b c) (Z.land (not32 b) d), iz)
    | 1%nat => (Z.lor (Z.land d b) (Z.land (not32 d) c), (5 * iz + 1) mod 16)
    | 2%nat => (Z.lxor b (Z.lxor c d), (3 * iz + 5) mod 16)
    | _ => (Z.lxor c (Z.lor b (not32 d)), (7 * iz) mod 16)
    end in
  let f := add32 (add32 (add32 f a) (nth i sines 0)) (nth (Z.to_nat g) m 0) in
  State d (add32 b (rotl32 f (nth i shifts 0))) b c.

Definition compress (st : state) (block : list Z) : state :=
  let '(State a b c d) := fold_left (step (words block)) (seq 0 64) st in
  State (add32 (sa st) a) (add32 (sb st) b) (add32 (sc st) c) (add32 (sd st) d).

Definition digest (msg : list Z) : list Z :=
  let bs := pad msg in
  let '(State a b c d) := fold_left compress (chunks 64 (length bs) bs) init in
  le_bytes 4 a ++ le_bytes 4 b ++ le_bytes 4 c ++ le_bytes 4 d.

Definition hexchar (n : Z) : ascii :=
  if n <? 10 then chr (48 + n) else chr (87 + n).

Definition hexdigest (msg : list Z) : string :=
  of_chars (flat_map (fun b => [hexchar (Z.shiftr b 4); hexchar (Z.land b 15)])
                     (digest msg)).

End MD5.

(** ** [SparkScraperConfig]: the filtering and category settings *)

Module SparkScraperConfig.

Definition MIN_WORD_COUNT : nat := 5.
Definition MAX_WORD_COUNT : nat := 200.

Definition EXCLUDED_WORDS : list string :=
  ["spam"; "advertisement"; "promotion"; "buy now"; "click here";
   "limited time"; "offer"; "discount"; "sale"].

(** A [dict] literal: its items in insertion order. *)
Definition IDEA_CATEGORIES : list (string * list string) :=
  [("web_app", ["web"; "app"; "website"; "platform"; "dashboard"]);
   ("mobile_app", ["mobile"; "ios"; "android"; "app store"]);
   ("ai_ml", ["ai"; "machine learning"; "artificial intelligence"; "neural network"]);
   ("fintech", ["finance"; "payment"; "banking"; "investment"; "crypto"]);
   ("healthcare", ["health"; "medical"; "fitness"; "wellness"]);
   ("education", ["learning"; "education"; "course"; "tutorial"]);
   ("productivity", ["productivity"; "automation"; "workflow"; "efficiency"]);
   ("social", ["social"; "community"; "network"; "connection"]);
   ("ecommerce", ["shop"; "store"; "marketplace"; "retail"]);
   ("gaming", ["game"; "gaming"; "entertainment"; "play"])].

End SparkScraperConfig.

(** ** [IdeaProcessor]: the object and its methods *)

Record IdeaProcessor := {
  seen_ideas : gset string;
  idea_categories : list (string * list string)
}.

(** [IdeaProcessor.__init__] *)
Definition new_processor : IdeaProcessor :=
  {| seen_ideas := ∅;
     idea_categories := SparkScraperConfig.IDEA_CATEGORIES |}.

(** A method that may update [self]: the result and the object afterwards. *)
Definition Method (A : Type) : Type := IdeaProcessor -> A * IdeaProcessor.

Definition ret {A} (a : A) : Method A := fun self => (a, self).

Definition bind {A B} (m : Method A) (k : A -> Method B) : Method B :=
  fun self => let '(a, self') := m self in k a self'.

Definition reads {A} (f : IdeaProcessor -> A) : Method A :=
  fun self => (f self, self).

(** [self.seen_ideas.add(h)] *)
Definition seen_add (h : string) : Method unit :=
  fun self =>
    (tt, {| seen_ideas := seen_ideas self ∪ {[h]};
            idea_categories := idea_categories self |}).

Notation "'do' x <- m ; k" := (bind m (fun x => k))
  (at level 10, x name, m at level 100, k at level 200,
   format "'[v' 'do'  x  <-  m ; '/' k ']'").

(** The key [is_duplicate] stores: [hashlib.md5(idea.lower().encode()).hexdigest()]. *)
Definition fingerprint (idea : string) : string :=
  MD5.hexdigest (str_encode (lower idea)).

Definition is_duplicate (idea : string) : Method bool :=
  let idea_hash := fingerprint idea in
  do seen <- reads seen_ideas;
  if bool_decide (idea_hash ∈ seen) then ret true
  else
    do _ <- seen_add idea_hash;
    ret false.

(** The loop of [categorize_idea] over [self.idea_categories.items()]. *)
Fixpoint categorize_loop (items : list (string * list string))
    (idea_lower : string) (categories : list string) : list string :=
  match items with
  | [] => categories
  | (category, keywords) :: items' =>
      if existsb (fun keyword => contains keyword idea_lower) keywords
      then categorize_loop items' idea_lower (categories ++ [category])
      else categorize_loop items' idea_lower categories
  end.

Definition categorize_idea (self : IdeaProcessor) (idea : string) : list string :=
  let idea_lower := lower idea in
  let categories := categorize_loop (idea_categories self) idea_lower [] in
  match categories with
  | [] => ["general"]
  | _ => categories
  end.

Definition filter_idea (idea : string) : Method bool :=
  let word_count := length (split idea) in
  if (word_count <? SparkScraperConfig.MIN_WORD_COUNT)%nat
     || (SparkScraperConfig.MAX_WORD_COUNT <? word_count)%nat
  then ret false
  else
    let idea_lower := lower idea in
    if existsb (fun excluded => contains excluded idea_lower)
               SparkScraperConfig.EXCLUDED_WORDS
    then ret false
    else
      do dup <- is_duplicate idea;
      if dup then ret false
      else ret true.

(** The dictionary [process_ideas] builds for an admitted idea. *)
Record ProcessedIdea := {
  text : string;
  source : string;
  categories : list string;
  sentiment : Q;
  word_count : nat;
  timestamp : string
}.

Section Environment.

(** [TextBlob(idea).sentiment.polarity]: the estimator of the [textblob]
    package, [None] where it raises. *)
Variable polarity : string -> option Q.

(** [datetime.now().isoformat()] as read for the candidate at a position
    of the batch. *)
Variable now : nat -> string.

Definition analyze_sentiment (idea : string) : Q :=
  match polarity idea with
  | Some p => p
  | None => 0%Q
  end.

(** The [for idea in ideas] loop; [i] is the position in the batch. *)
Fixpoint process_loop (ideas : list string) (source : string) (i : nat)
    (processed_ideas : list ProcessedIdea) : Method (list ProcessedIdea) :=
  match ideas with
  | [] => ret processed_ideas
  | idea :: ideas' =>
      let cleaned_idea := clean_text idea in
      do admitted <- filter_idea cleaned_idea;
      if negb admitted then process_loop ideas' source (S i) processed_ideas
      else
        do cats <- reads (fun self => categorize_idea self cleaned_idea);
        let processed_idea :=
          {| text := cleaned_idea;
             source := source;
             categories := cats;
             sentiment := analyze_sentiment cleaned_idea;
             word_count := length (split cleaned_idea);
             timestamp := now i |} in
        process_loop ideas' source (S i) (processed_ideas ++ [processed_idea])
  end.

Definition process_ideas (ideas : list string) (source : string)
    : Method (list ProcessedIdea) :=
  process_loop ideas source 0 [].

End Environment.

(** ** Vocabulary of the statements *)

Definition nonspace (c : ascii) : bool := negb (Unicode.isspace c).

(** A word as [str.split()] yields them: not empty, no white space inside. *)
Definition is_word (w : list ascii) : Prop :=
  w <> [] /\ Forall (fun c => Unicode.isspace c = false) w.

(** Two white-space characters in a row somewhere in the string. *)
Fixpoint double_space (l : list ascii) : bool :=
  match l with
  | [] => false
  | c :: r =>
      match r with
      | [] => false
      | d :: _ => (Unicode.isspace c && Unicode.isspace d) || double_space r
      end
  end.

(** The characters one step of the URL group accepts, and the length of the
    longest run of them at the head of a string. *)
Definition url_char (c : ascii) : bool :=
  in_range 97 122 c || in_range 65 90 c || in_range 48 57 c
  || in_range 36 95 c || one_of "@.&+" c || one_of "!*\(\)," c.

Fixpoint run_length (s : list ascii) : nat :=
  match s with
  | c :: r => if url_char c then S (run_length r) else 0%nat
  | [] => 0%nat
  end.

(** The characters [clean_text] lets through: a word character (letter,
    digit or underscore), the space, or one of [. ! ? -]. *)
Definition allowed (c : ascii) : bool :=
  Unicode.isword c || bool_decide (c = " "%char) || one_of ".!?-" c.

(** The set the specification gives for the normaliser: letters, digits,
    white space and [. ! ? -]. *)
Definition spec_normalizer_set (c : ascii) : bool :=
  Unicode.isalnum c || Unicode.isspace c || one_of ".!?-" c.

(** The content criteria of [filter_idea], as predicates on the text. *)
Definition within_bounds (idea : string) : bool :=
  (SparkScraperConfig.MIN_WORD_COUNT <=? length (split idea))%nat
  && (length (split idea) <=? SparkScraperConfig.MAX_WORD_COUNT)%nat.

Definition blacklisted (idea : string) : bool :=
  existsb (fun excluded => contains excluded (lower idea))
          SparkScraperConfig.EXCLUDED_WORDS.

(** The processor after [self.seen_ideas.add(h)]. *)
Definition with_seen (h : string) (self : IdeaProcessor) : IdeaProcessor :=
  {| seen_ideas := seen_ideas self ∪ {[h]};
     idea_categories := idea_categories self |}.

(** The record [process_ideas] appends for an admitted candidate. *)
Definition record_of (polarity : string -> option Q) (now : nat -> string)
    (self : IdeaProcessor) (cleaned_idea source : string)
    (i : nat) : ProcessedIdea :=
  {| text := cleaned_idea;
     source := source;
     categories := categorize_idea self cleaned_idea;
     sentiment := analyze_sentiment polarity cleaned_idea;
     word_count := length (split cleaned_idea);
     timestamp := now i |}.

(** What the specification requires of every emitted record. *)
Definition meets_criteria (r : ProcessedIdea) : Prop :=
  (SparkScraperConfig.MIN_WORD_COUNT <= length (split (text r))
   <= SparkScraperConfig.MAX_WORD_COUNT)%nat
  /\ blacklisted (text r) = false
  /\ word_count r = length (split (text r)).

Definition record_fingerprint (r : ProcessedIdea) : string :=
  fingerprint (text r).

(** What one run of the loop adds: records that meet the criteria, with
    pairwise distinct fingerprints, none seen before the run and all
    seen after it. *)
Definition adds (self : IdeaProcessor) (new : list ProcessedIdea)
    (self' : IdeaProcessor) : Prop :=
  Forall meets_criteria new
  /\ NoDup (map record_fingerprint new)
  /\ (forall r, In r new ->
        (record_fingerprint r ∉ seen_ideas self)
        /\ (record_fingerprint r ∈ seen_ideas self'))
  /\ seen_ideas self ⊆ seen_ideas self'.

(** A use of the processor: a call of one of the methods that may change
    it. [EnhancedSparkScraper.run] makes three [process_ideas] calls on its
    processor, one for each source. *)
Inductive call : Type :=
| ProcessIdeas (ideas : list string) (source : string)
| FilterIdea (idea : string)
| IsDuplicate (idea : string).

(** The records a call returns to the caller. *)
Definition run_call (polarity : string -> option Q) (now : nat -> string)
    (c : call) : Method (list ProcessedIdea) :=
  match c with
  | ProcessIdeas ideas source => process_ideas polarity now ideas source
  | FilterIdea idea => do _ <- filter_idea idea; ret []
  | IsDuplicate idea => do _ <- is_duplicate idea; ret []
  end.

(** The calls made on one processor over its lifetime, in order, and the
    records it emitted, in order. *)
Fixpoint lifetime (polarity : string -> option Q) (now : nat -> string)
    (calls : list call) : Method (list ProcessedIdea) :=
  match calls with
  | [] => ret []
  | c :: calls' =>
      do out <- run_call polarity now c;
      do outs <- lifetime polarity now calls';
      ret (out ++ outs)
  end.

(** The answers of the detector to a sequence of texts: [is_duplicate]
    called on each of them in turn. *)
Fixpoint is_duplicate_each (texts : list string) : Method (list bool) :=
  match texts with
  | [] => ret []
  | idea :: texts' =>
      do answer <- is_duplicate idea;
      do answers <- is_duplicate_each texts';
      ret (answer :: answers)
  end.

(** A text of [n] words. *)
Definition n_words (n : nat) : string :=
  join " " (repeat "idea" n).

(** A taxonomy item is triggered by a text: one of its keywords occurs in
    the lower-cased text. *)
Definition triggers (idea : string) (item : string * list string) : Prop :=
  exists keyword, In keyword (snd item) /\ contains keyword (lower idea) = true.

Definition triggersb (idea : string) (item : string * list string) : bool :=
  existsb (fun keyword => contains keyword (lower idea)) (snd item).

(** A small estimator used to try the statements on. *)
Definition sample_polarity (idea : string) : option Q :=
  if contains "love" (lower idea) then Some (1 # 2)%Q
  else if contains "hate" (lower idea) then Some (- (3 # 4))%Q
  else None.

(** ** Vocabulary of the further statements *)

(** The record stems from a candidate of the batch: it is the record built
    for the candidate at some position [k], the clock read at [i0 + k]. *)
Definition emitted_from (polarity : string -> option Q) (now : nat -> string)
    (self : IdeaProcessor) (source : string) (ideas : list string) (i0 : nat)
    (r : ProcessedIdea) : Prop :=
  exists k idea,
    nth_error ideas k = Some idea
    /\ r = record_of polarity now self (clean_text idea) source (i0 + k).

(** A candidate the content checks of [filter_idea] let through. *)
Definition acceptable (idea : string) : bool :=
  within_bounds (clean_text idea) && negb (blacklisted (clean_text idea)).

(** ** [SparkScraperConfig]: the keyword and subreddit settings *)

(** [s.split(sep)] with a separator of one character: the fields between
    the separators, empty ones included; never an empty list. *)
Fixpoint split_sep_chars (sep : ascii) (s : list ascii) : list (list ascii) :=
  match s with
  | [] => [[]]
  | c :: r =>
      if bool_decide (c = sep) then [] :: split_sep_chars sep r
      else match split_sep_chars sep r with
           | w :: ws => (c :: w) :: ws
           | [] => [[c]]
           end
  end.

Definition split_sep (sep : ascii) (s : string) : list string :=
  map of_chars (split_sep_chars sep (chars s)).

Definition DEFAULT_KEYWORDS : list string :=
  ["project ideas"; "startup ideas"; "side project"; "app ideas";
   "business ideas"; "coding project"; "developer project"].

Definition DEFAULT_SUBREDDITS : list string :=
  ["sideprojects"; "startups"; "entrepreneur"; "webdev"; "programming";
   "indiehackers"; "SaaS"].

(** [SparkScraperConfig.get_keywords]; [getenv] is [os.getenv], [None] for a
    variable that is not set. The empty string is false in [if env_keywords]. *)
Definition get_keywords (getenv : string -> option string) : list string :=
  match getenv "SPARKSCRAPER_KEYWORDS" with
  | Some env_keywords =>
      if bool_decide (env_keywords = "") then DEFAULT_KEYWORDS
      else map (fun kw => strip kw) (split_sep "," env_keywords)
  | None => DEFAULT_KEYWORDS
  end.

(** [SparkScraperConfig.get_subreddits] *)
Definition get_subreddits (getenv : string -> option string) : list string :=
  match getenv "SPARKSCRAPER_SUBREDDITS" with
  | Some env_subreddits =>
      if bool_decide (env_subreddits = "") then DEFAULT_SUBREDDITS
      else map (fun sub => strip sub) (split_sep "," env_subreddits)
  | None => DEFAULT_SUBREDDITS
  end.

(** An environment with one variable set. *)
Definition one_variable (name value : string) : string -> option string :=
  fun n => if bool_decide (n = name) then Some value else None.

(** The last character of the string is one the URL pattern does not
    accept. *)
Fixpoint ends_nonurl (s : list ascii) : bool :=
  match s with
  | [] => false
  | c :: r =>
      match r with
      | [] => negb (url_char c)
      | _ :: _ => ends_nonurl r
      end
  end.

(** The string is empty or starts with such a character. *)
Definition starts_nonurl (s : list ascii) : bool :=
  match s with
  | [] => true
  | c :: _ => negb (url_char c)
  end.

(** ** [EnhancedSparkScraper]: collecting, saving, running *)

(** The pre-filter of the three scrapers:
    ["project" in text.lower() or "idea" in text.lower()]. *)
Definition mentions_project_or_idea (text : string) : bool :=
  contains "project" (lower text) || contains "idea" (lower text).

(** The inner loop of [scrape_reddit_enhanced] and [scrape_twitter_enhanced]:
    the texts that pass the pre-filter are appended to [all_ideas]. *)
Fixpoint collect_texts (texts : list string) (all_ideas : list string)
    : list string :=
  match texts with
  | [] => all_ideas
  | text :: texts' =>
      if mentions_project_or_idea text
      then collect_texts texts' (all_ideas ++ [text])
      else collect_texts texts' all_ideas
  end.

(** The inner loop of [scrape_linkedin_enhanced]: [post.get_text().strip()]
    is what is tested and appended. *)
Fixpoint collect_posts (posts : list string) (all_ideas : list string)
    : list string :=
  match posts with
  | [] => all_ideas
  | post :: posts' =>
      let text := strip post in
      if mentions_project_or_idea text
      then collect_posts posts' (all_ideas ++ [text])
      else collect_posts posts' all_ideas
  end.

Definition linkedin_selectors : list string :=
  ["div.search-result__info"; "div.feed-shared-text"; "span.break-words"].

(** The [for selector in selectors] loop for one page; [find_all cls] gives
    the texts of the [div] elements of class [cls]. A selector without a dot
    would make [selector.split(".")[1]] raise, which ends the work on the
    page. *)
Fixpoint linkedin_page (find_all : string -> list string)
    (selectors : list string) (all_ideas : list string) : list string :=
  match selectors with
  | [] => all_ideas
  | selector :: selectors' =>
      match split_sep "." selector with
      | _ :: class_ :: _ =>
          linkedin_page find_all selectors'
            (collect_posts (find_all class_) all_ideas)
      | _ => all_ideas
      end
  end.

(** [generate_csv] and [save_output] end by returning or by raising. *)
Inductive outcome (A : Type) : Type :=
| Returned (a : A)
| Raised (exception : string).

Arguments Returned {A} a.
Arguments Raised {A} exception.

(** [generate_csv]: the empty string for no ideas; otherwise its first
    statement calls [StringIO], a name the module neither defines nor
    imports. *)
Definition generate_csv (ideas : list ProcessedIdea) : outcome string :=
  match ideas with
  | [] => Returned ""
  | _ :: _ => Raised "NameError"
  end.

Definition OUTPUT_FILENAME : string := "sparkscraper_ideas.md".

(** The loop of [save_output]: the names of the files it opens for writing,
    in order, and the exception that ended it, if any. What is written to the
    files is left out; a file that cannot be written is logged and passed
    over. *)
Fixpoint save_output_loop (ideas : list ProcessedIdea) (formats : list string)
    (opened : list string) : list string * option string :=
  match formats with
  | [] => (opened, None)
  | output_format :: formats' =>
      if bool_decide (output_format = "markdown")
      then save_output_loop ideas formats' (opened ++ [OUTPUT_FILENAME])
      else if bool_decide (output_format = "json")
      then save_output_loop ideas formats' (opened ++ ["sparkscraper_ideas.json"])
      else if bool_decide (output_format = "csv")
      then match generate_csv ideas with
           | Returned _ =>
               save_output_loop ideas formats'
                 (opened ++ ["sparkscraper_ideas.csv"])
           | Raised exception => (opened, Some exception)
           end
      else save_output_loop ideas formats' opened
  end.

Definition save_output (ideas : list ProcessedIdea)
    (formats : option (list string)) : list string * option string :=
  let formats := match formats with None => ["markdown"] | Some f => f end in
  save_output_loop ideas formats [].

(** The texts [run] prints at its end, as code points: the emoji are beyond
    the characters of [string]. [pretty n] is [str(n)] for a length. *)
Definition code_points (s : string) : list Z := map code (chars s).

Definition completed_line : list Z :=
  [10; 127881] ++ code_points " SparkScraper completed!".

Definition total_line (all_ideas : list ProcessedIdea) : list Z :=
  [128202] ++ code_points " Total ideas found: "
  ++ code_points (pretty (length all_ideas)).

Definition formats_line (output_formats : list string) : list Z :=
  [128193] ++ code_points " Output saved in formats: "
  ++ code_points (join ", " output_formats).

Section Scraper.

(** [os.getenv]. *)
Variable getenv : string -> option string.

(** The estimator, and the clock as read while the batch of a source is
    processed. *)
Variable polarity : string -> option Q.
Variable clock : string -> nat -> string.

(** [self.reddit]: [None] when the set-up failed; otherwise
    [self.reddit.subreddit(name)] raises ([None]) or gives a subreddit whose
    [search(keyword, ...)] yields the titles listed, up to its end or to the
    exception that stops it. *)
Variable reddit : option (string -> option (string -> list string)).

(** [self.twitter_api]: [None] when the set-up failed; otherwise
    [search_tweets(q=keyword, ...)] raises ([None]) or returns tweets with
    the [full_text] listed. *)
Variable twitter_api : option (string -> option (list string)).

(** The page fetched and parsed for a keyword by [scrape_linkedin_enhanced]:
    [None] when the request raises. *)
Variable linkedin_soup : string -> option (string -> list string).

(** [print(text)] on the standard output: [None] when the text is written,
    otherwise the exception raised, [UnicodeEncodeError] on a stream whose
    encoding lacks a character of the text. *)
Variable print : list Z -> option string.

Fixpoint reddit_keywords (search : string -> list string)
    (keywords : list string) (all_ideas : list string) : list string :=
  match keywords with
  | [] => all_ideas
  | keyword :: keywords' =>
      reddit_keywords search keywords' (collect_texts (search keyword) all_ideas)
  end.

Fixpoint reddit_subreddits (subreddit : string -> option (string -> list string))
    (subreddits keywords : list string) (all_ideas : list string)
    : list string :=
  match subreddits with
  | [] => all_ideas
  | subreddit_name :: subreddits' =>
      match subreddit subreddit_name with
      | Some search =>
          reddit_subreddits subreddit subreddits' keywords
            (reddit_keywords search keywords all_ideas)
      | None => reddit_subreddits subreddit subreddits' keywords all_ideas
      end
  end.

Definition scrape_reddit_enhanced (subreddits keywords : list string)
    : Method (list ProcessedIdea) :=
  match reddit with
  | None => ret []
  | Some subreddit =>
      let all_ideas := reddit_subreddits subreddit subreddits keywords [] in
      process_ideas polarity (clock "reddit") all_ideas "reddit"
  end.

Fixpoint twitter_keywords (search_tweets : string -> option (list string))
    (keywords : list string) (all_ideas : list string) : list string :=
  match keywords with
  | [] => all_ideas
  | keyword :: keywords' =>
      match search_tweets keyword with
      | Some tweets =>
          twitter_keywords search_tweets keywords' (collect_texts tweets all_ideas)
      | None => twitter_keywords search_tweets keywords' all_ideas
      end
  end.

Definition scrape_twitter_enhanced (keywords : list string)
    : Method (list ProcessedIdea) :=
  match twitter_api with
  | None => ret []
  | Some search_tweets =>
      let all_ideas := twitter_keywords search_tweets keywords [] in
      process_ideas polarity (clock "twitter") all_ideas "twitter"
  end.

Fixpoint linkedin_keywords (keywords : list string) (all_ideas : list string)
    : list string :=
  match keywords with
  | [] => all_ideas
  | keyword :: keywords' =>
      match linkedin_soup keyword with
      | Some find_all =>
          linkedin_keywords keywords'
            (linkedin_page find_all linkedin_selectors all_ideas)
      | None => linkedin_keywords keywords' all_ideas
      end
  end.

Definition scrape_linkedin_enhanced (keywords : list string)
    : Method (list ProcessedIdea) :=
  let all_ideas := linkedin_keywords keywords [] in
  process_ideas polarity (clock "linkedin") all_ideas "linkedin".

(** [EnhancedSparkScraper.run]: the files opened by [save_output], and the
    ideas returned or the exception raised, by [save_output] or by one of
    the three [print] calls that follow it. *)
Definition run (keywords subreddits output_formats : option (list string))
    : Method (list string * outcome (list ProcessedIdea)) :=
  let keywords :=
    match keywords with None => get_keywords getenv | Some k => k end in
  let subreddits :=
    match subreddits with None => get_subreddits getenv | Some s => s end in
  let output_formats :=
    match output_formats with None => ["markdown"] | Some f => f end in
  do reddit_ideas <- scrape_reddit_enhanced subreddits keywords;
  do twitter_ideas <- scrape_twitter_enhanced keywords;
  do linkedin_ideas <- scrape_linkedin_enhanced keywords;
  let all_ideas := (([] ++ reddit_ideas) ++ twitter_ideas) ++ linkedin_ideas in
  match save_output all_ideas (Some output_formats) with
  | (opened, Some exception) => ret (opened, Raised exception)
  | (opened, None) =>
      match print completed_line with
      | Some exception => ret (opened, Raised exception)
      | None =>
          match print (total_line all_ideas) with
          | Some exception => ret (opened, Raised exception)
          | None =>
              match print (formats_line output_formats) with
              | Some exception => ret (opened, Raised exception)
              | None => ret (opened, Returned all_ideas)
              end
          end
      end
  end.

End Scraper.

(** The exception of the first of the texts that [print] cannot write, if
    there is one. *)
Fixpoint first_failure (print : list Z -> option string)
    (texts : list (list Z)) : option string :=
  match texts with
  | [] => None
  | text :: texts' =>
      match print text with
      | Some exception => Some exception
      | None => first_failure print texts'
      end
  end.

(** [thins s t]: [t] is [s] with some characters left out, none of them
    white space. *)
Inductive thins : list ascii -> list ascii -> Prop :=
| thins_nil : thins [] []
| thins_keep c s t : thins s t -> thins (c :: s) (c :: t)
| thins_drop c s t : Unicode.isspace c = false -> thins s t -> thins (c :: s) t.

(** The number of words [str.split()] finds, counted without building them;
    [in_word] says that a word is being read. *)
Fixpoint count_words (in_word : bool) (s : list ascii) : nat :=
  match s with
  | [] => if in_word then 1 else 0
  | c :: r =>
      if Unicode.isspace c
      then ((if in_word then 1 else 0) + count_words false r)%nat
      else count_words true r
  end.

(** ** The grouping loops of [generate_markdown_enhanced] *)

(** A [dict] of lists, as its items in insertion order; [dict_append d key x]
    is [d] after [if key not in d: d[key] = []] and [d[key].append(x)]. *)
Fixpoint dict_append {V : Type} (d : list (string * list V)) (key : string)
    (x : V) : list (string * list V) :=
  match d with
  | [] => [(key, [x])]
  | (k, xs) :: d' =>
      if bool_decide (k = key) then (k, xs ++ [x]) :: d'
      else (k, xs) :: dict_append d' key x
  end.

(** [d[key]], the empty list standing for a missing key. *)
Fixpoint dict_get {V : Type} (d : list (string * list V)) (key : string)
    : list V :=
  match d with
  | [] => []
  | (k, xs) :: d' => if bool_decide (k = key) then xs else dict_get d' key
  end.

(** The loop that fills [by_source]. *)
Fixpoint group_by_source (ideas : list ProcessedIdea)
    (by_source : list (string * list ProcessedIdea))
    : list (string * list ProcessedIdea) :=
  match ideas with
  | [] => by_source
  | idea :: ideas' =>
      group_by_source ideas' (dict_append by_source (source idea) idea)
  end.

(** The loops that fill [by_category] for the ideas of one source: the inner
    one over [idea["categories"]], the outer one over the ideas. *)
Fixpoint add_to_categories (cats : list string) (idea : ProcessedIdea)
    (by_category : list (string * list ProcessedIdea))
    : list (string * list ProcessedIdea) :=
  match cats with
  | [] => by_category
  | category :: cats' =>
      add_to_categories cats' idea (dict_append by_category category idea)
  end.

Fixpoint group_by_category (source_ideas : list ProcessedIdea)
    (by_category : list (string * list ProcessedIdea))
    : list (string * list ProcessedIdea) :=
  match source_ideas with
  | [] => by_category
  | idea :: ideas' =>
      group_by_category ideas'
        (add_to_categories (categories idea) idea by_category)
  end.

(** The number of entries under all the headings of a grouping. *)
Definition entries {V : Type} (d : list (string * list V)) : nat :=
  length (concat (map snd d)).

(** Two records to try the statements on. *)
Definition sample_record (t s : string) (cats : list string) : ProcessedIdea :=
  {| text := t; source := s; categories := cats; sentiment := 0%Q;
     word_count := length (split t); timestamp := "" |}.

(** * Properties *)

(** ** The embedding on sample inputs *)

Example md5_empty :
  MD5.hexdigest (str_encode "") = "d41d8cd98f00b204e9800998ecf8427e".
Proof. vm_compute. reflexivity. Qed.

Example md5_abc :
  MD5.hexdigest (str_encode "abc") = "900150983cd24fb0d6963f7d28e17f72".
Proof. vm_compute. reflexivity. Qed.

Example fingerprint_folds_case :
  fingerprint "Build an app" = "147126458d6ae2dddb05d84f72aa3b81"
  /\ fingerprint "BUILD AN APP" = "147126458d6ae2dddb05d84f72aa3b81".
Proof. vm_compute. split; reflexivity. Qed.

Example split_on_runs :
  split "  one two   three " = ["one"; "two"; "three"].
Proof. vm_compute. reflexivity. Qed.

Example clean_text_url :
  clean_text "  see https://foo.bar/x?y=1 now, a_b (c) #tag  "
  = "see now a_b c tag".
Proof. vm_compute. reflexivity. Qed.

Example clean_text_scheme_only :
  clean_text "httpx http:// https://a http://" = "httpx http http".
Proof. vm_compute. reflexivity. Qed.

Example categorize_in_declared_order :
  categorize_idea new_processor "A game to learn crypto on the web"
  = ["web_app"; "fintech"; "gaming"].
Proof. vm_compute. reflexivity. Qed.

(** ** Strings *)

Lemma chars_of_chars (l : list ascii) : chars (of_chars l) = l.
Proof. apply Stdlib.Strings.String.list_ascii_of_string_of_list_ascii. Qed.

Lemma of_chars_chars (s : string) : of_chars (chars s) = s.
Proof. apply Stdlib.Strings.String.string_of_list_ascii_of_string. Qed.


(** ** Splitting, joining and stripping *)

Lemma split_go_words cur s :
  Forall (fun c => Unicode.isspace c = false) cur ->
  Forall is_word (split_go cur s).
Proof.
  revert cur. induction s as [|c r IH]; intros cur Hcur; simpl.
  - destruct cur as [|a cur']; constructor; [|constructor].
    split.
    + intros E. apply (f_equal (@length ascii)) in E.
      rewrite length_rev in E. discriminate.
    + apply Forall_rev. exact Hcur.
  - destruct (Unicode.isspace c) eqn:Hc.
    + destruct cur as [|a cur'].
      * apply IH. constructor.
      * constructor; [|apply IH; constructor].
        split.
        -- intros E. apply (f_equal (@length ascii)) in E.
           rewrite length_rev in E. discriminate.
        -- apply Forall_rev. exact Hcur.
    + apply IH. constructor; assumption.
Qed.

Lemma split_chars_words s : Forall is_word (split_chars s).
Proof. apply split_go_words. constructor. Qed.

Lemma split_go_concat cur s :
  concat (split_go cur s) = rev cur ++ List.filter nonspace s.
Proof.
  revert cur. induction s as [|c r IH]; intros cur; simpl.
  - destruct cur; simpl; rewrite ?app_nil_r; reflexivity.
  - unfold nonspace at 1. destruct (Unicode.isspace c) eqn:Hc; simpl.
    + destruct cur as [|a cur']; simpl; rewrite IH; reflexivity.
    + rewrite IH. simpl. rewrite <- app_assoc. reflexivity.
Qed.

Lemma split_chars_concat s :
  concat (split_chars s) = List.filter nonspace s.
Proof. apply split_go_concat. Qed.

Lemma split_go_app_word cur w rest :
  Forall (fun c => Unicode.isspace c = false) w ->
  split_go cur (w ++ rest) = split_go (rev w ++ cur) rest.
Proof.
  revert cur. induction w as [|c w IH]; intros cur Hw; simpl; [reflexivity|].
  inversion Hw as [|? ? Hc Hw']; subst. rewrite Hc, IH by assumption.
  rewrite <- app_assoc. reflexivity.
Qed.

Lemma isspace_space : Unicode.isspace " " = true.
Proof. reflexivity. Qed.

Lemma rev_word_cons (w : list ascii) :
  w <> [] -> exists a l, rev w = a :: l.
Proof.
  intros Hne. destruct (rev w) as [|a l] eqn:E; [|eauto].
  apply (f_equal (@length ascii)) in E. rewrite length_rev in E.
  destruct w; [contradiction|discriminate].
Qed.

Lemma split_go_last_word w :
  is_word w -> split_go [] w = [w].
Proof.
  intros [Hne Hw].
  pose proof (split_go_app_word [] w [] Hw) as E.
  rewrite !app_nil_r in E. rewrite E.
  destruct (rev_word_cons w Hne) as (a & l & Hr).
  simpl. rewrite Hr, <- Hr, rev_involutive. reflexivity.
Qed.

Lemma split_go_word_space w rest :
  is_word w -> split_go [] (w ++ " "%char :: rest) = w :: split_go [] rest.
Proof.
  intros [Hne Hw].
  rewrite split_go_app_word by assumption. rewrite app_nil_r.
  destruct (rev_word_cons w Hne) as (a & l & Hr).
  simpl. rewrite Hr, <- Hr, rev_involutive. reflexivity.
Qed.

Lemma split_chars_join ws :
  Forall is_word ws -> split_chars (join_chars (chars " ") ws) = ws.
Proof.
  unfold split_chars. induction ws as [|w ws IH]; intros Hws; [reflexivity|].
  inversion Hws as [|? ? Hw Hws']; subst.
  destruct ws as [|w' ws'].
  - simpl. apply split_go_last_word. exact Hw.
  - change (join_chars (chars " ") (w :: w' :: ws'))
      with (w ++ " "%char :: join_chars (chars " ") (w' :: ws')).
    rewrite split_go_word_space, IH by assumption. reflexivity.
Qed.

Lemma lstrip_chars_join sep ws :
  Forall is_word ws -> lstrip_chars (join_chars sep ws) = join_chars sep ws.
Proof.
  intros Hws. destruct ws as [|w ws]; [reflexivity|].
  inversion Hws as [|? ? [Hne Hw] _]; subst.
  destruct w as [|c w]; [contradiction|].
  inversion Hw as [|? ? Hc _]; subst.
  destruct ws; simpl; rewrite Hc; reflexivity.
Qed.

Lemma join_chars_snoc sep (l : list (list ascii)) x :
  l <> [] -> join_chars sep (l ++ [x]) = join_chars sep l ++ sep ++ x.
Proof.
  induction l as [|a l IH]; intros Hne; [contradiction|].
  destruct l as [|b l'].
  - reflexivity.
  - change (join_chars sep ((a :: b :: l') ++ [x]))
      with (a ++ sep ++ join_chars sep ((b :: l') ++ [x])).
    rewrite IH by discriminate.
    change (join_chars sep (a :: b :: l'))
      with (a ++ sep ++ join_chars sep (b :: l')).
    rewrite <- !app_assoc. reflexivity.
Qed.

Lemma rev_join_chars sep ws :
  rev (join_chars sep ws) = join_chars (rev sep) (rev (map (@rev ascii) ws)).
Proof.
  induction ws as [|w ws IH]; [reflexivity|].
  destruct ws as [|w' ws'].
  - reflexivity.
  - change (join_chars sep (w :: w' :: ws'))
      with (w ++ sep ++ join_chars sep (w' :: ws')).
    rewrite !rev_app_distr, IH.
    change (rev (map (@rev ascii) (w :: w' :: ws')))
      with (rev (map (@rev ascii) (w' :: ws')) ++ [rev w]).
    rewrite join_chars_snoc, <- !app_assoc; [reflexivity|].
    intros E. apply (f_equal (@length (list ascii))) in E.
    rewrite length_rev in E. discriminate.
Qed.

Lemma is_word_rev w : is_word w -> is_word (rev w).
Proof.
  intros [Hne Hw]. split.
  - intros E. apply (f_equal (@length ascii)) in E. rewrite length_rev in E.
    destruct w; [contradiction|discriminate].
  - apply Forall_rev. exact Hw.
Qed.

Lemma strip_chars_join sep ws :
  Forall is_word ws -> strip_chars (join_chars sep ws) = join_chars sep ws.
Proof.
  intros Hws. unfold strip_chars.
  rewrite lstrip_chars_join by assumption.
  rewrite rev_join_chars, lstrip_chars_join, <- rev_join_chars, rev_involutive.
  - reflexivity.
  - apply Forall_rev. apply Forall_forall. intros x Hx.
    apply list_elem_of_In, in_map_iff in Hx. destruct Hx as [w [<- Hin]].
    apply is_word_rev. rewrite Forall_forall in Hws. apply Hws.
    apply list_elem_of_In. exact Hin.
Qed.

Lemma join_chars_In sep ws c :
  In c (join_chars sep ws) -> In c sep \/ In c (concat ws).
Proof.
  induction ws as [|w ws IH]; [intros []|].
  destruct ws as [|w' ws'].
  - simpl. rewrite app_nil_r. auto.
  - change (join_chars sep (w :: w' :: ws'))
      with (w ++ sep ++ join_chars sep (w' :: ws')).
    change (concat (w :: w' :: ws')) with (w ++ concat (w' :: ws')).
    rewrite !in_app_iff. intros [H|[H|H]]; auto.
    destruct (IH H); auto.
Qed.

Lemma join_chars_head sep ws c r :
  Forall is_word ws -> join_chars sep ws = c :: r -> Unicode.isspace c = false.
Proof.
  intros Hws E. destruct ws as [|w ws]; [discriminate|].
  inversion Hws as [|? ? [Hne Hw] _]; subst.
  destruct w as [|a w]; [contradiction|].
  inversion Hw as [|? ? Ha _]; subst.
  destruct ws; simpl in E; inversion E; subst; exact Ha.
Qed.

Lemma join_chars_last sep ws l c :
  Forall is_word ws -> join_chars sep ws = l ++ [c] -> Unicode.isspace c = false.
Proof.
  intros Hws E. apply (f_equal (@rev ascii)) in E.
  rewrite rev_join_chars, rev_app_distr in E. simpl in E.
  eapply join_chars_head; [|exact E].
  apply Forall_rev. apply Forall_forall. intros x Hx.
  apply list_elem_of_In, in_map_iff in Hx. destruct Hx as [w [<- Hin]].
  apply is_word_rev. rewrite Forall_forall in Hws. apply Hws.
  apply list_elem_of_In. exact Hin.
Qed.

Lemma double_space_app_word w r :
  Forall (fun c => Unicode.isspace c = false) w ->
  double_space (w ++ r) = double_space r.
Proof.
  induction w as [|c w IH]; intros Hw; [reflexivity|].
  inversion Hw as [|? ? Hc Hw']; subst.
  change ((c :: w) ++ r) with (c :: (w ++ r)).
  simpl. rewrite Hc. simpl. rewrite IH by assumption.
  destruct (w ++ r) eqn:E; [|reflexivity].
  apply app_eq_nil in E. destruct E as [_ ->]. reflexivity.
Qed.

Lemma double_space_join ws :
  Forall is_word ws -> double_space (join_chars (chars " ") ws) = false.
Proof.
  induction ws as [|w ws IH]; intros Hws; [reflexivity|].
  inversion Hws as [|? ? [Hne Hw] Hws']; subst.
  destruct ws as [|w' ws'].
  - simpl. rewrite <- (app_nil_r w) at 1.
    rewrite double_space_app_word by assumption. reflexivity.
  - change (join_chars (chars " ") (w :: w' :: ws'))
      with (w ++ " "%char :: join_chars (chars " ") (w' :: ws')).
    rewrite double_space_app_word by assumption.
    destruct (join_chars (chars " ") (w' :: ws')) as [|d J] eqn:E;
      [reflexivity|].
    change (double_space (" "%char :: d :: J))
      with ((Unicode.isspace " " && Unicode.isspace d) || double_space (d :: J)).
    rewrite (join_chars_head _ _ _ _ Hws' E), andb_false_r.
    apply IH. exact Hws'.
Qed.

(** ** The URL pattern *)

(** The [%XX] alternative of the group is never the one taken: [%] lies in
    the range [$-_] of the third alternative. *)
Lemma url_alt_one_char s :
  Re.url_alt s =
  match s with
  | c :: r => if url_char c then Some r else None
  | [] => None
  end.
Proof.
  destruct s as [|c r]; [reflexivity|].
  unfold Re.url_alt, url_char.
  destruct (in_range 97 122 c); [reflexivity|].
  destruct (in_range 65 90 c); [reflexivity|].
  destruct (in_range 48 57 c); [reflexivity|].
  destruct (in_range 36 95 c) eqn:Hr; [reflexivity|].
  destruct (one_of "@.&+" c); [reflexivity|].
  destruct (one_of "!*\(\)," c); [reflexivity|]. simpl.
  assert ((code c =? 37) = false) as ->.
  { unfold in_range in Hr. apply andb_false_iff in Hr. lia. }
  destruct r as [|h1 [|h2 r']]; reflexivity.
Qed.

(** With fuel for every character, the steps of the group read the longest
    run of accepted characters. *)
Lemma url_steps_run_length fuel s :
  (length s <= fuel)%nat -> Re.url_steps fuel s = run_length s.
Proof.
  revert s. induction fuel as [|fuel IH]; intros s Hlen.
  - destruct s; [reflexivity|simpl in Hlen; lia].
  - cbn [Re.url_steps]. rewrite url_alt_one_char.
    destruct s as [|c r]; [reflexivity|].
    cbn [run_length]. destruct (url_char c); [|reflexivity].
    simpl in Hlen. rewrite IH by lia.
    cbn [length]. lia.
Qed.

Lemma literal_suffix p s r x :
  Re.literal p s = Some r -> In x r -> In x s.
Proof.
  revert s. induction p as [|a p IH]; intros s; simpl.
  - intros [= ->]. auto.
  - destruct s as [|b s']; [discriminate|].
    case_bool_decide; [|discriminate].
    intros E Hx. right. eapply IH; eassumption.
Qed.

Lemma url_tail_no_colon s : ~ In ":"%char s -> Re.url_tail s = None.
Proof.
  intros Hs. unfold Re.url_tail. destruct s as [|b s']; [reflexivity|].
  simpl. case_bool_decide; [|reflexivity].
  subst b. exfalso. apply Hs. left. reflexivity.
Qed.

Lemma url_match_no_colon s : ~ In ":"%char s -> Re.url_match s = None.
Proof.
  intros Hs. unfold Re.url_match.
  destruct (Re.literal (chars "http") s) as [r|] eqn:E; [|reflexivity].
  assert (Hr : ~ In ":"%char r).
  { intros Hx. apply Hs. eapply literal_suffix; eassumption. }
  rewrite (url_tail_no_colon r Hr). simpl.
  destruct r as [|c r']; [reflexivity|].
  case_bool_decide; [|reflexivity].
  rewrite url_tail_no_colon; [reflexivity|].
  intros Hx. apply Hr. right. exact Hx.
Qed.

Lemma sub_url_no_colon s : ~ In ":"%char s -> Re.sub_url s = s.
Proof.
  unfold Re.sub_url. induction s as [|c r IH]; intros Hs; [reflexivity|].
  simpl. rewrite (url_match_no_colon (c :: r) Hs).
  f_equal. apply IH. intros Hx. apply Hs. right. exact Hx.
Qed.

(** ** [clean_text] *)

Lemma map_chars_of_chars (l : list (list ascii)) :
  map chars (map of_chars l) = l.
Proof.
  induction l as [|x l IH]; [reflexivity|].
  simpl. rewrite chars_of_chars, IH. reflexivity.
Qed.

Lemma clean_text_chars text :
  chars (clean_text text) =
  join_chars (chars " ")
    (split_chars (Re.sub_special (Re.sub_url (chars text)))).
Proof.
  unfold clean_text, strip, join, split.
  rewrite !chars_of_chars, map_chars_of_chars.
  apply strip_chars_join, split_chars_words.
Qed.

Lemma kept_nonspace_allowed c :
  Re.kept c = true -> Unicode.isspace c = false -> allowed c = true.
Proof.
  unfold Re.kept, allowed. intros Hk Hs. rewrite Hs in Hk.
  destruct (Unicode.isword c); [reflexivity|].
  destruct (one_of ".!?-" c); [|discriminate].
  rewrite orb_true_r. reflexivity.
Qed.

Lemma allowed_kept c : allowed c = true -> Re.kept c = true.
Proof.
  unfold Re.kept, allowed. intros Ha.
  destruct (Unicode.isword c); [reflexivity|].
  destruct (one_of ".!?-" c); [rewrite orb_true_r; reflexivity|].
  rewrite orb_false_r in Ha. simpl in Ha.
  case_bool_decide; [|discriminate]. subst c. reflexivity.
Qed.

Lemma clean_text_allowed text :
  Forall (fun c => allowed c = true) (chars (clean_text text)).
Proof.
  rewrite clean_text_chars. apply Forall_forall. intros c Hc.
  apply list_elem_of_In, join_chars_In in Hc. destruct Hc as [Hc|Hc].
  - destruct Hc as [<-|[]]. reflexivity.
  - rewrite split_chars_concat in Hc. apply filter_In in Hc.
    destruct Hc as [Hin Hns]. apply filter_In in Hin.
    destruct Hin as [_ Hk]. apply kept_nonspace_allowed; [exact Hk|].
    unfold nonspace in Hns. destruct (Unicode.isspace c); [discriminate|reflexivity].
Qed.

Lemma filter_all {A} (f : A -> bool) l :
  Forall (fun x => f x = true) l -> List.filter f l = l.
Proof.
  induction 1 as [|x l Hx _ IH]; [reflexivity|].
  simpl. rewrite Hx, IH. reflexivity.
Qed.

(** C4, as stated, fails: the class [\w] of the second substitution keeps the
    underscore, which is no letter, digit, white space or one of [. ! ? -]. *)
Lemma clean_text_keeps_underscore :
  clean_text "snake_case" = "snake_case"
  /\ In "_"%char (chars (clean_text "snake_case"))
  /\ spec_normalizer_set "_" = false.
Proof. vm_compute. intuition. Qed.

(** C4 (amended): every character of [clean_text text] is a word character
    (letter, digit or underscore), a single space or one of [. ! ? -]; the
    output has no two white-space characters in a row and none at either
    end; and its words are the words left after the URL-shaped substrings
    and then the characters outside [\w \s . ! ? -] are removed. *)
Theorem clean_text_normal_form (text : string) :
  let out := chars (clean_text text) in
  Forall (fun c => allowed c = true) out
  /\ double_space out = false
  /\ match out with c :: _ => Unicode.isspace c = false | [] => True end
  /\ match rev out with c :: _ => Unicode.isspace c = false | [] => True end
  /\ split (clean_text text)
     = split (of_chars (Re.sub_special (Re.sub_url (chars text)))).
Proof.
  cbv zeta. pose proof (split_chars_words
    (Re.sub_special (Re.sub_url (chars text)))) as Hws.
  split; [apply clean_text_allowed|].
  unfold split. rewrite clean_text_chars, chars_of_chars.
  split; [apply double_space_join; exact Hws|].
  split; [|split].
  - destruct (join_chars _ _) as [|c r] eqn:E; [exact I|].
    eapply join_chars_head; eassumption.
  - destruct (rev (join_chars _ _)) as [|c r] eqn:E; [exact I|].
    apply (f_equal (@rev ascii)) in E. rewrite rev_involutive in E.
    simpl in E. eapply join_chars_last; eassumption.
  - rewrite split_chars_join by exact Hws. reflexivity.
Qed.

(** C10: [clean_text] is idempotent. *)
Theorem clean_text_idempotent (text : string) :
  clean_text (clean_text text) = clean_text text.
Proof.
  assert (E : chars (clean_text (clean_text text)) = chars (clean_text text)).
  { rewrite (clean_text_chars (clean_text text)).
    pose proof (clean_text_allowed text) as Hall.
    rewrite sub_url_no_colon.
    - unfold Re.sub_special. rewrite filter_all.
      + rewrite clean_text_chars. f_equal.
        apply split_chars_join, split_chars_words.
      + eapply Forall_impl; [exact Hall|]. intros c. apply allowed_kept.
    - intros Hin. rewrite Forall_forall in Hall.
      apply list_elem_of_In, Hall in Hin. discriminate. }
  rewrite <- (of_chars_chars (clean_text (clean_text text))), E.
  apply of_chars_chars.
Qed.

(** ** The processor *)

Lemma is_duplicate_unfold idea self :
  is_duplicate idea self =
  if bool_decide (fingerprint idea ∈ seen_ideas self) then (true, self)
  else (false, with_seen (fingerprint idea) self).
Proof.
  unfold is_duplicate, bind, reads, ret, seen_add, with_seen.
  case_bool_decide; reflexivity.
Qed.

Lemma filter_idea_unfold idea self :
  filter_idea idea self =
  if within_bounds idea && negb (blacklisted idea)
  then if bool_decide (fingerprint idea ∈ seen_ideas self) then (false, self)
       else (true, with_seen (fingerprint idea) self)
  else (false, self).
Proof.
  unfold filter_idea, within_bounds, blacklisted.
  rewrite !Nat.ltb_antisym, <- negb_andb.
  destruct (_ && _)%bool; cbn [negb andb]; [|reflexivity].
  destruct (existsb _ _); cbn [negb]; [reflexivity|].
  unfold bind. rewrite is_duplicate_unfold.
  case_bool_decide; reflexivity.
Qed.

Lemma filter_idea_rejects idea self :
  within_bounds idea = false \/ blacklisted idea = true ->
  filter_idea idea self = (false, self).
Proof.
  intros H. rewrite filter_idea_unfold.
  destruct H as [-> | ->]; [reflexivity|].
  rewrite andb_false_r. reflexivity.
Qed.

Lemma is_duplicate_grows idea self :
  seen_ideas self ⊆ seen_ideas (snd (is_duplicate idea self)).
Proof.
  rewrite is_duplicate_unfold. case_bool_decide; simpl; set_solver.
Qed.

Lemma filter_idea_grows idea self :
  seen_ideas self ⊆ seen_ideas (snd (filter_idea idea self)).
Proof.
  rewrite filter_idea_unfold.
  destruct (within_bounds idea && negb (blacklisted idea))%bool; [|set_solver].
  case_bool_decide; simpl; set_solver.
Qed.

Section EnvironmentFacts.

Variable polarity : string -> option Q.
Variable now : nat -> string.

Lemma process_loop_cons idea ideas' source i acc self :
  process_loop polarity now (idea :: ideas') source i acc self =
  if within_bounds (clean_text idea) && negb (blacklisted (clean_text idea))
     && negb (bool_decide (fingerprint (clean_text idea) ∈ seen_ideas self))
  then process_loop polarity now ideas' source (S i)
         (acc ++ [record_of polarity now self (clean_text idea) source i])
         (with_seen (fingerprint (clean_text idea)) self)
  else process_loop polarity now ideas' source (S i) acc self.
Proof.
  cbn [process_loop]. unfold bind at 1. rewrite filter_idea_unfold.
  destruct (within_bounds _ && negb _)%bool; cbn [negb andb]; [|reflexivity].
  case_bool_decide; reflexivity.
Qed.

Lemma process_loop_rejected idea ideas' source i acc self :
  within_bounds (clean_text idea) = false
  \/ blacklisted (clean_text idea) = true ->
  process_loop polarity now (idea :: ideas') source i acc self =
  process_loop polarity now ideas' source (S i) acc self.
Proof.
  intros H. rewrite process_loop_cons.
  destruct H as [-> | ->]; [reflexivity|].
  rewrite andb_false_r. reflexivity.
Qed.

End EnvironmentFacts.

Section LoopInvariant.

Variable polarity : string -> option Q.
Variable now : nat -> string.

Lemma adds_nothing self : adds self [] self.
Proof.
  split; [constructor|]. split; [constructor|]. split; [intros r []|].
  set_solver.
Qed.

Lemma adds_first self cleaned source i new self' :
  within_bounds cleaned = true ->
  blacklisted cleaned = false ->
  fingerprint cleaned ∉ seen_ideas self ->
  adds (with_seen (fingerprint cleaned) self) new self' ->
  adds self (record_of polarity now self cleaned source i :: new) self'.
Proof.
  intros Hb Hx Hfresh (Hall & Hnd & Hseen & Hsub).
  simpl in Hsub.
  assert (Hin : fingerprint cleaned ∈ seen_ideas self')
    by (clear -Hsub; set_solver).
  split; [|split; [|split]].
  - constructor; [|exact Hall]. unfold meets_criteria. simpl.
    unfold within_bounds in Hb. apply andb_true_iff in Hb.
    destruct Hb as [H1 H2].
    apply Nat.leb_le in H1. apply Nat.leb_le in H2. auto.
  - simpl. constructor; [|exact Hnd].
    intros Hmem. apply list_elem_of_In, in_map_iff in Hmem.
    destruct Hmem as (r & Hr & Hrin).
    destruct (Hseen r Hrin) as [Hnot _]. apply Hnot.
    rewrite Hr. simpl. clear. set_solver.
  - intros r [<- | Hr].
    + split; [exact Hfresh|exact Hin].
    + destruct (Hseen r Hr) as [Hnot Hyes]. simpl in Hnot.
      split; [clear -Hnot; set_solver|exact Hyes].
  - clear -Hsub. set_solver.
Qed.

Lemma adds_trans self new1 self1 new2 self2 :
  adds self new1 self1 -> adds self1 new2 self2 ->
  adds self (new1 ++ new2) self2.
Proof.
  intros (Hall1 & Hnd1 & Hseen1 & Hsub1) (Hall2 & Hnd2 & Hseen2 & Hsub2).
  split; [|split; [|split]].
  - apply Forall_app. split; assumption.
  - rewrite map_app. apply NoDup_app.
    split; [exact Hnd1|]. split; [|exact Hnd2].
    intros h H1 H2.
    apply list_elem_of_In, in_map_iff in H1. destruct H1 as (r1 & <- & Hr1).
    apply list_elem_of_In, in_map_iff in H2. destruct H2 as (r2 & E & Hr2).
    destruct (Hseen1 r1 Hr1) as [_ Hyes].
    destruct (Hseen2 r2 Hr2) as [Hnot _].
    apply Hnot. rewrite E. exact Hyes.
  - intros r H. apply in_app_iff in H. destruct H as [H|H].
    + destruct (Hseen1 r H) as [Hnot Hyes].
      split; [exact Hnot|clear -Hyes Hsub2; set_solver].
    + destruct (Hseen2 r H) as [Hnot Hyes].
      split; [clear -Hnot Hsub1; set_solver|exact Hyes].
  - clear -Hsub1 Hsub2. set_solver.
Qed.

Lemma process_loop_adds ideas source i acc self :
  exists new,
    fst (process_loop polarity now ideas source i acc self) = acc ++ new
    /\ adds self new (snd (process_loop polarity now ideas source i acc self)).
Proof.
  revert i acc self. induction ideas as [|idea ideas' IH]; intros i acc self.
  - exists []. simpl. rewrite app_nil_r. split; [reflexivity|].
    apply adds_nothing.
  - rewrite process_loop_cons.
    destruct (within_bounds (clean_text idea)) eqn:Hb; cbn [andb negb];
      [|apply IH].
    destruct (blacklisted (clean_text idea)) eqn:Hx; cbn [andb negb];
      [apply IH|].
    case_bool_decide as Hseen; cbn [andb negb]; [apply IH|].
    destruct (IH (S i)
                (acc ++ [record_of polarity now self (clean_text idea) source i])
                (with_seen (fingerprint (clean_text idea)) self))
      as (new & Hout & Hadds).
    exists (record_of polarity now self (clean_text idea) source i :: new).
    split.
    + rewrite Hout, <- app_assoc. reflexivity.
    + apply adds_first; assumption.
Qed.

Lemma process_ideas_adds ideas source self :
  adds self (fst (process_ideas polarity now ideas source self))
       (snd (process_ideas polarity now ideas source self)).
Proof.
  unfold process_ideas.
  destruct (process_loop_adds ideas source 0 [] self) as (new & Hout & Hadds).
  rewrite Hout. exact Hadds.
Qed.

Lemma adds_grow self self' :
  seen_ideas self ⊆ seen_ideas self' -> adds self [] self'.
Proof.
  intros Hsub. split; [constructor|]. split; [constructor|].
  split; [intros r []|exact Hsub].
Qed.

Lemma run_call_adds c self :
  adds self (fst (run_call polarity now c self))
       (snd (run_call polarity now c self)).
Proof.
  destruct c as [ideas source|idea|idea]; cbn [run_call].
  - apply process_ideas_adds.
  - unfold bind, ret. pose proof (filter_idea_grows idea self) as H.
    destruct (filter_idea idea self) as [r self']. apply adds_grow. exact H.
  - unfold bind, ret. pose proof (is_duplicate_grows idea self) as H.
    destruct (is_duplicate idea self) as [r self']. apply adds_grow. exact H.
Qed.

Lemma lifetime_adds calls self :
  adds self (fst (lifetime polarity now calls self))
       (snd (lifetime polarity now calls self)).
Proof.
  revert self. induction calls as [|c calls' IH]; intros self.
  - apply adds_nothing.
  - cbn [lifetime]. unfold bind, ret.
    pose proof (run_call_adds c self) as H1.
    destruct (run_call polarity now c self) as [out self1].
    pose proof (IH self1) as H2.
    destruct (lifetime polarity now calls' self1) as [outs self2].
    simpl in *. eapply adds_trans; eassumption.
Qed.

End LoopInvariant.

(** C9: over the lifetime of one processor, whatever calls are made on it
    and from whatever state it starts, every record emitted by [process_ideas]
    has a word count within [MIN_WORD_COUNT, MAX_WORD_COUNT], contains no
    excluded phrase, has a [word_count] field equal to the number of words of
    its [text], and has a fingerprint distinct from that of every other
    emitted record. *)
Theorem emitted_records_invariant (polarity : string -> option Q)
    (now : nat -> string) (calls : list call) (self : IdeaProcessor) :
  let out := fst (lifetime polarity now calls self) in
  Forall meets_criteria out /\ NoDup (map record_fingerprint out).
Proof.
  destruct (lifetime_adds polarity now calls self) as (H1 & H2 & _).
  split; assumption.
Qed.

(** ** The quality filter and the duplicate detector *)

(** C1, as stated, fails: [filter_idea] records the fingerprint of a text it
    admits, and rejects the same text when it is offered again. *)
Lemma filter_idea_reads_and_writes_seen :
  let idea := "Build a weather app today" in
  let first := filter_idea idea new_processor in
  let second := filter_idea idea (snd first) in
  fst first = true
  /\ fst second = false
  /\ elements (seen_ideas new_processor) = []
  /\ elements (seen_ideas (snd first)) = [fingerprint idea].
Proof. vm_compute. intuition. Qed.

(** C1 (amended): the word-count and excluded-phrase checks of [filter_idea]
    neither read nor change the set of seen fingerprints, and a text failing
    one of them leaves the processor as it was; for a text passing both,
    [filter_idea] itself calls [is_duplicate]: it admits the text exactly
    when its fingerprint is not in the set, and the set afterwards is the
    set before with this fingerprint added. The categories are never
    changed. *)
Theorem filter_idea_effect (idea : string) (self : IdeaProcessor) :
  let r := fst (filter_idea idea self) in
  let self' := snd (filter_idea idea self) in
  idea_categories self' = idea_categories self
  /\ if within_bounds idea && negb (blacklisted idea)
     then r = negb (bool_decide (fingerprint idea ∈ seen_ideas self))
          /\ seen_ideas self' = seen_ideas self ∪ {[fingerprint idea]}
     else r = false /\ self' = self.
Proof.
  cbv zeta. rewrite filter_idea_unfold.
  destruct (within_bounds idea && negb (blacklisted idea))%bool; [|auto].
  case_bool_decide as Hin; simpl; [|auto].
  repeat split. apply set_eq. intros h.
  rewrite elem_of_union, elem_of_singleton.
  split; [auto|]. intros [Hh | ->]; assumption.
Qed.

(** C2: a candidate whose cleaned text fails the word-count bounds or contains
    an excluded phrase is rejected by [filter_idea] with the processor, and so
    the set of seen fingerprints, unchanged; the loop of [process_ideas]
    passes over it without a record; and offered twice it is rejected twice
    by the filter, nothing being registered. *)
Theorem rejected_candidate_not_registered (polarity : string -> option Q)
    (now : nat -> string) (raw source : string) (rest : list string)
    (i : nat) (acc : list ProcessedIdea) (self : IdeaProcessor) :
  within_bounds (clean_text raw) = false
  \/ blacklisted (clean_text raw) = true ->
  filter_idea (clean_text raw) self = (false, self)
  /\ process_loop polarity now (raw :: rest) source i acc self
     = process_loop polarity now rest source (S i) acc self
  /\ process_ideas polarity now [raw; raw] source self = ([], self).
Proof.
  intros H. split; [apply filter_idea_rejects; exact H|].
  split; [apply process_loop_rejected; exact H|].
  unfold process_ideas. rewrite !process_loop_rejected by exact H.
  reflexivity.
Qed.

Lemma rejected_candidate_not_registered_witness :
  let raw := "Grab this limited time project idea today!" in
  blacklisted (clean_text raw) = true
  /\ filter_idea (clean_text raw) new_processor = (false, new_processor)
  /\ process_ideas (fun _ => None) (fun _ => "") [raw; raw] "reddit"
       new_processor = ([], new_processor).
Proof.
  split; [vm_compute; reflexivity|].
  pose proof (rejected_candidate_not_registered (fun _ => None) (fun _ => "")
    "Grab this limited time project idea today!" "reddit" [] 0 []
    new_processor (or_intror eq_refl)) as (H1 & _ & H3).
  split; assumption.
Defined.

(** C3, as stated, fails: both items clean to three words, fewer than
    [MIN_WORD_COUNT], so no record is returned; and the cleaned texts keep
    their exclamation marks apart, so the fingerprints differ. *)
Lemma scenario_two_returns_no_record :
  (forall polarity now,
     length (fst (process_ideas polarity now
                    ["Build an app"; "build an  app!!"] "reddit"
                    new_processor)) = 0%nat)
  /\ fingerprint (clean_text "Build an app")
     <> fingerprint (clean_text "build an  app!!").
Proof.
  split.
  - intros polarity now. unfold process_ideas.
    rewrite !process_loop_rejected by (left; vm_compute; reflexivity).
    reflexivity.
  - vm_compute. discriminate.
Qed.

(** C3 (amended): on the input list ["Build an app", "build an  app!!"],
    [process_ideas] cleans the items to "Build an app" and "build an app!!",
    of three words each; both are rejected by the word-count check
    ([MIN_WORD_COUNT] is 5), no record is returned and no fingerprint is
    recorded. *)
Theorem scenario_two_both_rejected (polarity : string -> option Q)
    (now : nat -> string) :
  clean_text "Build an app" = "Build an app"
  /\ clean_text "build an  app!!" = "build an app!!"
  /\ length (split "Build an app") = 3%nat
  /\ length (split "build an app!!") = 3%nat
  /\ process_ideas polarity now ["Build an app"; "build an  app!!"] "reddit"
       new_processor = ([], new_processor).
Proof.
  repeat (split; [vm_compute; reflexivity|]).
  unfold process_ideas.
  rewrite !process_loop_rejected by (left; vm_compute; reflexivity).
  reflexivity.
Qed.

(** The duplicate detector at work on texts long enough to be admitted. *)
Example case_variants_deduplicated (polarity : string -> option Q)
    (now : nat -> string) :
  map text (fst (process_ideas polarity now
                   ["Build an app for remote teams";
                    "build an  APP for remote teams"] "reddit" new_processor))
  = ["Build an app for remote teams"].
Proof.
  unfold process_ideas. rewrite process_loop_cons.
  replace (within_bounds _ && negb _ && negb _)%bool with true
    by (vm_compute; reflexivity).
  rewrite process_loop_cons.
  replace (within_bounds _ && negb _ && negb _)%bool with false
    by (vm_compute; reflexivity).
  reflexivity.
Qed.

(** What a run of [is_duplicate] calls answers and leaves behind, from any
    state of the processor. *)
Lemma is_duplicate_each_facts texts self :
  length (fst (is_duplicate_each texts self)) = length texts
  /\ (forall k t, nth_error texts k = Some t ->
        nth_error (fst (is_duplicate_each texts self)) k
        = Some (bool_decide (fingerprint t ∈ seen_ideas self
                             \/ fingerprint t ∈ map fingerprint (take k texts))))
  /\ seen_ideas (snd (is_duplicate_each texts self))
     = seen_ideas self ∪ list_to_set (map fingerprint texts)
  /\ idea_categories (snd (is_duplicate_each texts self))
     = idea_categories self.
Proof.
  revert self. induction texts as [|idea texts IH]; intros self.
  - simpl. split; [reflexivity|]. split; [intros [|k] t H; discriminate|].
    split; [|reflexivity]. symmetry. apply union_empty_r_L.
  - cbn [is_duplicate_each]. unfold bind, ret.
    rewrite is_duplicate_unfold.
    destruct (decide (fingerprint idea ∈ seen_ideas self)) as [Hin|Hout].
    + rewrite (bool_decide_eq_true_2 _ Hin).
      destruct (IH self) as (Hl & Hn & Hs & Hc).
      destruct (is_duplicate_each texts self) as [answers final].
      cbn [fst snd] in *.
      split; [simpl; rewrite Hl; reflexivity|]. split; [|split; [|exact Hc]].
      * intros [|k] t Hk; cbn [nth_error] in *.
        -- injection Hk as <-. f_equal. symmetry.
           apply bool_decide_eq_true_2. left. exact Hin.
        -- rewrite (Hn k t Hk). f_equal. apply bool_decide_ext.
           cbn [take map]. rewrite elem_of_cons.
           split; [tauto|]. intros [H|[H|H]]; [tauto| |tauto].
           left. rewrite H. exact Hin.
      * rewrite Hs. cbn [map list_to_set]. apply set_eq. intros x.
        rewrite !elem_of_union, elem_of_singleton.
        split; [tauto|]. intros [H|[H|H]]; [tauto| |tauto].
        left. rewrite H. exact Hin.
    + rewrite (bool_decide_eq_false_2 _ Hout).
      destruct (IH (with_seen (fingerprint idea) self)) as (Hl & Hn & Hs & Hc).
      destruct (is_duplicate_each texts (with_seen (fingerprint idea) self))
        as [answers final].
      cbn [fst snd with_seen seen_ideas idea_categories] in *.
      split; [simpl; rewrite Hl; reflexivity|]. split; [|split; [|exact Hc]].
      * intros [|k] t Hk; cbn [nth_error] in *.
        -- injection Hk as <-. f_equal. symmetry.
           apply bool_decide_eq_false_2. cbn [take map].
           intros [H|H]; [exact (Hout H)|]. inversion H.
        -- rewrite (Hn k t Hk). f_equal. apply bool_decide_ext.
           cbn [take map]. rewrite elem_of_cons, elem_of_union,
             elem_of_singleton. tauto.
      * rewrite Hs. cbn [map list_to_set]. apply set_eq. intros x.
        rewrite !elem_of_union. tauto.
Qed.

(** C5: first seen wins. A fresh detector is asked about a sequence of
    texts, one [is_duplicate] call for each. It answers [true] at a position
    exactly when an earlier text of the sequence has the same fingerprint: so
    the first occurrence of a fingerprint is answered [false], whatever other
    texts came before it, and every later occurrence [true]. What it has
    recorded at the end is the set of the fingerprints of the texts, the
    hexadecimal MD5 digest of the encoded lower-cased text. After that, and
    after any further calls on the processor, a text that differs from one of
    the sequence only in letter case, or has the fingerprint of one, is
    answered [true], and the call changes nothing. *)
Theorem is_duplicate_first_seen_wins (polarity : string -> option Q)
    (now : nat -> string) (texts : list string) (between : list call) :
  let answers := fst (is_duplicate_each texts new_processor) in
  let detector := snd (is_duplicate_each texts new_processor) in
  let later := snd (lifetime polarity now between detector) in
  length answers = length texts
  /\ (forall k t, nth_error texts k = Some t ->
        nth_error answers k
        = Some (bool_decide (fingerprint t ∈ map fingerprint (take k texts))))
  /\ seen_ideas detector
     = list_to_set
         (map (fun t => MD5.hexdigest (str_encode (lower t))) texts)
  /\ (forall t t', In t texts ->
        lower t' = lower t \/ fingerprint t' = fingerprint t ->
        is_duplicate t' later = (true, later)).
Proof.
  cbv zeta.
  destruct (is_duplicate_each_facts texts new_processor) as (Hl & Hn & Hs & _).
  split; [exact Hl|]. split; [|split].
  - intros k t Hk. rewrite (Hn k t Hk). f_equal. apply bool_decide_ext.
    cbn [new_processor seen_ideas]. split; [|tauto].
    intros [H|H]; [|exact H]. exfalso. revert H. apply not_elem_of_empty.
  - rewrite Hs. cbn [new_processor seen_ideas]. apply union_empty_l_L.
  - intros t t' Hin Hsame.
    assert (Hfp : fingerprint t' = fingerprint t).
    { destruct Hsame as [H|H]; [|exact H]. unfold fingerprint. rewrite H.
      reflexivity. }
    destruct (lifetime_adds polarity now between
                (snd (is_duplicate_each texts new_processor)))
      as (_ & _ & _ & Hgrow).
    rewrite is_duplicate_unfold, Hfp.
    rewrite bool_decide_eq_true_2; [reflexivity|].
    apply Hgrow. rewrite Hs. apply elem_of_union_r, elem_of_list_to_set.
    apply list_elem_of_In, in_map, Hin.
Qed.

Lemma is_duplicate_first_seen_wins_witness :
  let texts :=
    ["Build an app"; "Another idea"; "BUILD an App"; "another IDEA";
     "A third idea"] in
  let between :=
    [FilterIdea "One more idea to look at";
     ProcessIdeas ["Build a weather app with real-time alerts"] "reddit"] in
  nth_error (fst (is_duplicate_each texts new_processor)) 1 = Some false
  /\ nth_error (fst (is_duplicate_each texts new_processor)) 2 = Some true
  /\ nth_error (fst (is_duplicate_each texts new_processor)) 4 = Some false
  /\ fst (is_duplicate "build AN app"
            (snd (lifetime sample_polarity (fun _ => "") between
                    (snd (is_duplicate_each texts new_processor)))))
     = true.
Proof.
  cbv zeta.
  pose proof (is_duplicate_first_seen_wins sample_polarity (fun _ => "")
    ["Build an app"; "Another idea"; "BUILD an App"; "another IDEA";
     "A third idea"]
    [FilterIdea "One more idea to look at";
     ProcessIdeas ["Build a weather app with real-time alerts"] "reddit"])
    as (_ & Hnth & _ & Hlater).
  cbv zeta in Hnth, Hlater.
  split; [rewrite (Hnth 1%nat "Another idea" eq_refl); vm_compute; reflexivity|].
  split; [rewrite (Hnth 2%nat "BUILD an App" eq_refl); vm_compute; reflexivity|].
  split; [rewrite (Hnth 4%nat "A third idea" eq_refl); vm_compute; reflexivity|].
  rewrite (Hlater "Build an app" "build AN app");
    [reflexivity|left; reflexivity|left; vm_compute; reflexivity].
Defined.

(** C6, as stated, fails: a text of exactly [MIN_WORD_COUNT] words with no
    excluded phrase does not pass [filter_idea] once its fingerprint has been
    recorded. *)
Lemma five_words_seen_before_fails :
  let idea := "Build a simple weather tracker" in
  let seen_once := snd (filter_idea idea new_processor) in
  length (split idea) = SparkScraperConfig.MIN_WORD_COUNT
  /\ blacklisted idea = false
  /\ fst (filter_idea idea seen_once) = false.
Proof. vm_compute. intuition. Qed.

(** C6 (amended): for a text with no excluded phrase whose fingerprint has not
    been recorded, [filter_idea] passes exactly when the word count lies in
    [MIN_WORD_COUNT, MAX_WORD_COUNT], both ends included: it passes with
    [MIN_WORD_COUNT] and with [MAX_WORD_COUNT] words, and fails with one word
    fewer or one word more. *)
Theorem filter_idea_word_bounds (idea : string) (self : IdeaProcessor) :
  blacklisted idea = false ->
  fingerprint idea ∉ seen_ideas self ->
  let n := length (split idea) in
  let passes := fst (filter_idea idea self) in
  (passes = true <->
   (SparkScraperConfig.MIN_WORD_COUNT <= n <= SparkScraperConfig.MAX_WORD_COUNT)%nat)
  /\ (n = SparkScraperConfig.MIN_WORD_COUNT -> passes = true)
  /\ (n = (SparkScraperConfig.MIN_WORD_COUNT - 1)%nat -> passes = false)
  /\ (n = SparkScraperConfig.MAX_WORD_COUNT -> passes = true)
  /\ (n = (SparkScraperConfig.MAX_WORD_COUNT + 1)%nat -> passes = false).
Proof.
  intros Hx Hfresh n passes.
  assert (Hpass : passes = within_bounds idea).
  { subst passes. rewrite filter_idea_unfold, Hx.
    rewrite bool_decide_eq_false_2 by exact Hfresh.
    destruct (within_bounds idea); reflexivity. }
  assert (Hiff : passes = true <->
    (SparkScraperConfig.MIN_WORD_COUNT <= n <= SparkScraperConfig.MAX_WORD_COUNT)%nat).
  { rewrite Hpass. unfold within_bounds. fold n.
    rewrite andb_true_iff, !Nat.leb_le. reflexivity. }
  assert (Hout : ~ (SparkScraperConfig.MIN_WORD_COUNT <= n
                    <= SparkScraperConfig.MAX_WORD_COUNT)%nat -> passes = false).
  { intros H. destruct passes; [|reflexivity].
    exfalso. apply H, Hiff. reflexivity. }
  unfold SparkScraperConfig.MIN_WORD_COUNT, SparkScraperConfig.MAX_WORD_COUNT in *.
  split; [exact Hiff|].
  split; [intros E; apply Hiff; lia|].
  split; [intros E; apply Hout; lia|].
  split; [intros E; apply Hiff; lia|].
  intros E. apply Hout. lia.
Qed.

Lemma filter_idea_word_bounds_witness :
  let idea := "Build a simple weather tracker" in
  length (split idea) = 5%nat
  /\ fst (filter_idea idea new_processor) = true.
Proof.
  split; [vm_compute; reflexivity|].
  refine (proj1 (proj2 (filter_idea_word_bounds
    "Build a simple weather tracker" new_processor _ _)) _).
  - vm_compute. reflexivity.
  - apply not_elem_of_empty.
  - vm_compute. reflexivity.
Defined.

Example four_words_fail :
  fst (filter_idea (n_words 4) new_processor) = false.
Proof. vm_compute. reflexivity. Qed.

Example two_hundred_words_pass :
  length (split (n_words 200)) = 200%nat
  /\ fst (filter_idea (n_words 200) new_processor) = true.
Proof. vm_compute. split; reflexivity. Qed.

Example two_hundred_one_words_fail :
  length (split (n_words 201)) = 201%nat
  /\ fst (filter_idea (n_words 201) new_processor) = false.
Proof. vm_compute. split; reflexivity. Qed.

(** ** The categoriser *)

Lemma triggersb_spec idea item : triggersb idea item = true <-> triggers idea item.
Proof. unfold triggersb, triggers. apply existsb_exists. Qed.

Lemma categorize_loop_filter items idea acc :
  categorize_loop items (lower idea) acc
  = acc ++ map fst (List.filter (triggersb idea) items).
Proof.
  revert acc. induction items as [|[category keywords] items' IH]; intros acc.
  - simpl. rewrite app_nil_r. reflexivity.
  - cbn [categorize_loop List.filter].
    change (existsb (fun keyword => contains keyword (lower idea)) keywords)
      with (triggersb idea (category, keywords)).
    destruct (triggersb idea (category, keywords)).
    + rewrite IH, <- app_assoc. reflexivity.
    + apply IH.
Qed.

Lemma filter_keys_sublist {A B} (f : A * B -> bool) (items : list (A * B)) :
  sublist (map fst (List.filter f items)) (map fst items).
Proof.
  induction items as [|item items' IH]; simpl; [constructor|].
  destruct (f item); simpl; [apply sublist_skip | apply sublist_cons]; exact IH.
Qed.

Lemma no_trigger_forallb idea items :
  forallb (fun item => negb (triggersb idea item)) items = true ->
  forall item, In item items -> ~ triggers idea item.
Proof.
  intros H item Hin Ht. rewrite forallb_forall in H.
  apply H in Hin. apply triggersb_spec in Ht. rewrite Ht in Hin. discriminate.
Qed.

(** C7: with a taxonomy whose category names are distinct (a [dict]),
    [categorize_idea] returns no tag twice; when some category is triggered
    it returns exactly the triggered categories, in the order the taxonomy
    declares them; when none is, it returns ["general"]; and the result
    depends on the text only up to letter case. *)
Theorem categorize_idea_spec (self : IdeaProcessor) (idea : string) :
  NoDup (map fst (idea_categories self)) ->
  let cats := categorize_idea self idea in
  NoDup cats
  /\ ((exists item, In item (idea_categories self) /\ triggers idea item) ->
      sublist cats (map fst (idea_categories self))
      /\ forall c, In c cats <->
           exists item, In item (idea_categories self)
                        /\ fst item = c /\ triggers idea item)
  /\ ((forall item, In item (idea_categories self) -> ~ triggers idea item) ->
      cats = ["general"])
  /\ (forall idea', lower idea' = lower idea ->
      categorize_idea self idea' = cats).
Proof.
  intros Hnd. cbv zeta. unfold categorize_idea.
  split; [|split; [|split]].
  - rewrite categorize_loop_filter. simpl.
    destruct (map fst (List.filter (triggersb idea) (idea_categories self)))
      as [|c cs] eqn:E.
    + repeat constructor. intros H. inversion H.
    + rewrite <- E. eapply sublist_NoDup; [exact Hnd|apply filter_keys_sublist].
  - intros (item & Hin & Ht). rewrite categorize_loop_filter. simpl.
    assert (Hmem : In (fst item)
      (map fst (List.filter (triggersb idea) (idea_categories self)))).
    { apply in_map, filter_In. split; [exact Hin|].
      apply triggersb_spec. exact Ht. }
    destruct (map fst (List.filter (triggersb idea) (idea_categories self)))
      as [|c cs] eqn:E; [destruct Hmem|].
    rewrite <- E. split; [apply filter_keys_sublist|].
    intros c'. rewrite in_map_iff. split.
    + intros (it & Hc & Hit). apply filter_In in Hit.
      destruct Hit as [Hit Htb]. exists it.
      split; [exact Hit|]. split; [exact Hc|]. apply triggersb_spec. exact Htb.
    + intros (it & Hit & Hc & Htr). exists it. split; [exact Hc|].
      apply filter_In. split; [exact Hit|]. apply triggersb_spec. exact Htr.
  - intros Hnone. rewrite categorize_loop_filter. simpl.
    replace (List.filter (triggersb idea) (idea_categories self)) with
      (@nil (string * list string)); [reflexivity|].
    symmetry. induction (idea_categories self) as [|item items IH];
      [reflexivity|].
    simpl. destruct (triggersb idea item) eqn:Ht.
    + exfalso. apply (Hnone item); [left; reflexivity|].
      apply triggersb_spec. exact Ht.
    + apply IH.
      * inversion Hnd; assumption.
      * intros it Hit. apply Hnone. right. exact Hit.
  - intros idea' ->. reflexivity.
Qed.

Lemma categorize_idea_spec_witness :
  categorize_idea new_processor "Random post about cats" = ["general"]
  /\ categorize_idea new_processor "Mobile GAME for learning finance"
     = ["mobile_app"; "fintech"; "education"; "gaming"].
Proof.
  assert (Hnd : NoDup (map fst (idea_categories new_processor))).
  { apply (bool_decide_unpack _). vm_compute. exact I. }
  split.
  - refine (proj1 (proj2 (proj2
      (categorize_idea_spec new_processor "Random post about cats" Hnd))) _).
    apply no_trigger_forallb. vm_compute. reflexivity.
  - vm_compute. reflexivity.
Defined.

(** ** The sentiment scorer *)

(** C8: [analyze_sentiment] returns a score for every text; where the
    estimator fails the score is 0; and, the estimator's own scores lying in
    [-1, 1], so does every score returned. *)
Theorem analyze_sentiment_safe (polarity : string -> option Q) :
  (forall s p, polarity s = Some p -> (-1 <= p <= 1)%Q) ->
  forall idea,
    (polarity idea = None -> analyze_sentiment polarity idea = 0%Q)
    /\ (-1 <= analyze_sentiment polarity idea <= 1)%Q.
Proof.
  intros Hrange idea. unfold analyze_sentiment.
  destruct (polarity idea) as [p|] eqn:E.
  - split; [discriminate|]. apply (Hrange idea). exact E.
  - split; [reflexivity|]. split; discriminate.
Qed.

Lemma analyze_sentiment_safe_witness :
  analyze_sentiment sample_polarity "An app nobody scored" = 0%Q
  /\ (-1 <= analyze_sentiment sample_polarity "I hate slow builds")%Q
  /\ (analyze_sentiment sample_polarity "I love this idea" <= 1)%Q.
Proof.
  assert (Hrange : forall s p, sample_polarity s = Some p ->
                     (-1 <= p <= 1)%Q).
  { intros s p. unfold sample_polarity.
    destruct (contains "love" (lower s)).
    - intros [= <-]. split; discriminate.
    - destruct (contains "hate" (lower s)); [|discriminate].
      intros [= <-]. split; discriminate. }
  split; [|split].
  - apply (analyze_sentiment_safe sample_polarity Hrange "An app nobody scored").
    vm_compute. reflexivity.
  - apply (analyze_sentiment_safe sample_polarity Hrange "I hate slow builds").
  - apply (analyze_sentiment_safe sample_polarity Hrange "I love this idea").
Defined.

(** * Further properties *)

(** ** Batches of candidates *)

Lemma clean_text_fixed text : clean_text (clean_text text) = clean_text text.
Proof.
  assert (E : chars (clean_text (clean_text text)) = chars (clean_text text)).
  { rewrite (clean_text_chars (clean_text text)).
    pose proof (clean_text_allowed text) as Hall.
    rewrite sub_url_no_colon.
    - unfold Re.sub_special. rewrite filter_all.
      + rewrite clean_text_chars. f_equal.
        apply split_chars_join, split_chars_words.
      + eapply Forall_impl; [exact Hall|]. intros c. apply allowed_kept.
    - intros Hin. rewrite Forall_forall in Hall.
      apply list_elem_of_In, Hall in Hin. discriminate. }
  rewrite <- (of_chars_chars (clean_text (clean_text text))), E.
  apply of_chars_chars.
Qed.

Lemma categorize_idea_taxonomy self self' idea :
  idea_categories self' = idea_categories self ->
  categorize_idea self' idea = categorize_idea self idea.
Proof. unfold categorize_idea. intros ->. reflexivity. Qed.

Lemma categorize_idea_nonempty self idea : categorize_idea self idea <> [].
Proof.
  unfold categorize_idea.
  destruct (categorize_loop _ _ _); discriminate.
Qed.

Section Batches.

Variable polarity : string -> option Q.
Variable now : nat -> string.

Lemma record_of_taxonomy self self' cleaned source i :
  idea_categories self' = idea_categories self ->
  record_of polarity now self' cleaned source i
  = record_of polarity now self cleaned source i.
Proof.
  intros H. unfold record_of.
  rewrite (categorize_idea_taxonomy self self' cleaned H). reflexivity.
Qed.

Lemma process_loop_acceptable idea ideas' source i acc self :
  process_loop polarity now (idea :: ideas') source i acc self =
  if acceptable idea
     && negb (bool_decide (fingerprint (clean_text idea) ∈ seen_ideas self))
  then process_loop polarity now ideas' source (S i)
         (acc ++ [record_of polarity now self (clean_text idea) source i])
         (with_seen (fingerprint (clean_text idea)) self)
  else process_loop polarity now ideas' source (S i) acc self.
Proof. apply process_loop_cons. Qed.

(** What a run of the loop returns and leaves behind. *)
Lemma process_loop_emits ideas source i acc self :
  exists new,
    fst (process_loop polarity now ideas source i acc self) = acc ++ new
    /\ sublist (map text new) (map clean_text ideas)
    /\ Forall (emitted_from polarity now self source ideas i) new
    /\ seen_ideas (snd (process_loop polarity now ideas source i acc self))
       = seen_ideas self ∪ list_to_set (map record_fingerprint new)
    /\ idea_categories (snd (process_loop polarity now ideas source i acc self))
       = idea_categories self.
Proof.
  revert i acc self. induction ideas as [|idea ideas' IH]; intros i acc self.
  - exists []. simpl. rewrite app_nil_r.
    split; [reflexivity|]. split; [constructor|]. split; [constructor|].
    split; [|reflexivity]. symmetry. apply union_empty_r_L.
  - rewrite process_loop_acceptable.
    destruct (acceptable idea
              && negb (bool_decide (fingerprint (clean_text idea) ∈ seen_ideas self)))%bool.
    + destruct (IH (S i)
                  (acc ++ [record_of polarity now self (clean_text idea) source i])
                  (with_seen (fingerprint (clean_text idea)) self))
        as (new & Hout & Hsub & Hfrom & Hseen & Hcat).
      exists (record_of polarity now self (clean_text idea) source i :: new).
      split; [rewrite Hout, <- app_assoc; reflexivity|].
      split; [simpl; apply sublist_skip; exact Hsub|].
      split; [|split; [|exact Hcat]].
      * constructor.
        -- exists 0%nat, idea. rewrite Nat.add_0_r. split; reflexivity.
        -- eapply Forall_impl; [exact Hfrom|].
           intros r (k & idea' & Hk & ->). exists (S k), idea'.
           split; [exact Hk|].
           rewrite (record_of_taxonomy self
                      (with_seen (fingerprint (clean_text idea)) self))
             by reflexivity.
           f_equal. lia.
      * rewrite Hseen. simpl. unfold record_fingerprint at 2. simpl.
        apply set_eq. intros h. rewrite !elem_of_union. tauto.
    + destruct (IH (S i) acc self) as (new & Hout & Hsub & Hfrom & Hseen & Hcat).
      exists new. split; [exact Hout|].
      split; [simpl; apply sublist_cons; exact Hsub|].
      split; [|split; assumption].
      eapply Forall_impl; [exact Hfrom|].
      intros r (k & idea' & Hk & ->). exists (S k), idea'.
      split; [exact Hk|]. f_equal. lia.
Qed.

End Batches.

(** X1: the texts of the records [process_ideas] returns are cleaned
    candidates of the batch, in the order of the batch: the list of texts is
    a subsequence of the list of cleaned candidates, so no more records than
    candidates come back. *)
Theorem process_ideas_keeps_order (polarity : string -> option Q)
    (now : nat -> string) (ideas : list string) (source : string)
    (self : IdeaProcessor) :
  let out := fst (process_ideas polarity now ideas source self) in
  sublist (map text out) (map clean_text ideas)
  /\ (length out <= length ideas)%nat.
Proof.
  cbv zeta. unfold process_ideas.
  destruct (process_loop_emits polarity now ideas source 0 [] self)
    as (new & Hout & Hsub & _).
  rewrite Hout. simpl. split; [exact Hsub|].
  apply sublist_length in Hsub. rewrite !length_map in Hsub. exact Hsub.
Qed.

(** X2: every record [process_ideas] returns is built from one candidate of
    the batch: its text is the cleaned candidate and is itself unchanged by
    [clean_text], its source is the tag passed, its categories are those
    [categorize_idea] gives for the text (never an empty list), its sentiment
    is the score of the text, and its timestamp is the clock reading at the
    candidate's position. *)
Theorem process_ideas_record_fields (polarity : string -> option Q)
    (now : nat -> string) (ideas : list string) (tag : string)
    (self : IdeaProcessor) :
  Forall (fun r =>
            source r = tag
            /\ clean_text (text r) = text r
            /\ categories r = categorize_idea self (text r)
            /\ categories r <> []
            /\ sentiment r = analyze_sentiment polarity (text r)
            /\ exists k idea, nth_error ideas k = Some idea
                              /\ text r = clean_text idea
                              /\ timestamp r = now k)
         (fst (process_ideas polarity now ideas tag self)).
Proof.
  unfold process_ideas.
  destruct (process_loop_emits polarity now ideas tag 0 [] self)
    as (new & Hout & _ & Hfrom & _).
  rewrite Hout. simpl. eapply Forall_impl; [exact Hfrom|].
  intros r (k & idea & Hk & ->). simpl.
  split; [reflexivity|]. split; [apply clean_text_fixed|].
  split; [reflexivity|]. split; [apply categorize_idea_nonempty|].
  split; [reflexivity|]. exists k, idea. auto.
Qed.

(** X3: [process_ideas] records exactly the fingerprints of the records it
    returns: the set of seen fingerprints afterwards is the set before
    together with those of the returned records, and the taxonomy is left as
    it was. *)
Theorem process_ideas_registers_emitted (polarity : string -> option Q)
    (now : nat -> string) (ideas : list string) (source : string)
    (self : IdeaProcessor) :
  let out := fst (process_ideas polarity now ideas source self) in
  let self' := snd (process_ideas polarity now ideas source self) in
  seen_ideas self' = seen_ideas self ∪ list_to_set (map record_fingerprint out)
  /\ idea_categories self' = idea_categories self.
Proof.
  cbv zeta. unfold process_ideas.
  destruct (process_loop_emits polarity now ideas source 0 [] self)
    as (new & Hout & _ & _ & Hseen & Hcat).
  rewrite Hout. simpl. split; assumption.
Qed.


Section BatchesAgain.

Variable polarity : string -> option Q.
Variable now : nat -> string.

Lemma process_loop_grows ideas source i acc self :
  seen_ideas self
  ⊆ seen_ideas (snd (process_loop polarity now ideas source i acc self)).
Proof.
  destruct (process_loop_emits polarity now ideas source i acc self)
    as (new & _ & _ & _ & Hseen & _).
  rewrite Hseen. apply union_subseteq_l.
Qed.

Lemma process_loop_covers ideas source i acc self idea :
  In idea ideas -> acceptable idea = true ->
  fingerprint (clean_text idea)
  ∈ seen_ideas (snd (process_loop polarity now ideas source i acc self)).
Proof.
  revert i acc self. induction ideas as [|x ideas' IH]; intros i acc self;
    [intros []|].
  intros [-> | Hin] Hok.
  - rewrite process_loop_acceptable, Hok. cbn [andb].
    case_bool_decide as Hseen; cbn [negb].
    + apply (process_loop_grows ideas' source (S i) acc self). exact Hseen.
    + apply process_loop_grows. simpl. apply elem_of_union_r, elem_of_singleton.
      reflexivity.
  - rewrite process_loop_acceptable.
    destruct (_ && _)%bool; apply IH; assumption.
Qed.

Lemma process_loop_nothing_new ideas source i acc self :
  (forall idea, In idea ideas -> acceptable idea = true ->
                fingerprint (clean_text idea) ∈ seen_ideas self) ->
  process_loop polarity now ideas source i acc self = (acc, self).
Proof.
  revert i. induction ideas as [|x ideas' IH]; intros i Hseen; [reflexivity|].
  rewrite process_loop_acceptable.
  destruct (acceptable x) eqn:Hok; cbn [andb].
  - rewrite bool_decide_eq_true_2 by (apply Hseen; [left; reflexivity|exact Hok]).
    cbn [negb]. apply IH. intros idea Hin. apply Hseen. right. exact Hin.
  - apply IH. intros idea Hin. apply Hseen. right. exact Hin.
Qed.

Lemma process_loop_app xs ys source i acc self :
  process_loop polarity now (xs ++ ys) source i acc self =
  process_loop polarity now ys source (i + length xs)
    (fst (process_loop polarity now xs source i acc self))
    (snd (process_loop polarity now xs source i acc self)).
Proof.
  revert i acc self. induction xs as [|x xs' IH]; intros i acc self.
  - simpl. rewrite Nat.add_0_r. reflexivity.
  - change ((x :: xs') ++ ys) with (x :: (xs' ++ ys)).
    rewrite !process_loop_acceptable.
    replace (i + length (x :: xs'))%nat with (S i + length xs')%nat
      by (simpl; lia).
    destruct (_ && _)%bool; apply IH.
Qed.

Lemma process_loop_acc ideas source i acc self :
  process_loop polarity now ideas source i acc self =
  (acc ++ fst (process_loop polarity now ideas source i [] self),
   snd (process_loop polarity now ideas source i [] self)).
Proof.
  revert i acc self. induction ideas as [|x ideas' IH]; intros i acc self.
  - simpl. rewrite app_nil_r. reflexivity.
  - rewrite !process_loop_acceptable.
    destruct (_ && _)%bool; [|apply IH].
    rewrite IH. rewrite (IH _ ([] ++ _)). simpl.
    rewrite <- app_assoc. reflexivity.
Qed.

End BatchesAgain.

Lemma process_loop_shift polarity now k ideas source i acc self :
  process_loop polarity now ideas source (k + i) acc self =
  process_loop polarity (fun j => now (k + j)%nat) ideas source i acc self.
Proof.
  revert i acc self. induction ideas as [|x ideas' IH]; intros i acc self;
    [reflexivity|].
  rewrite !process_loop_acceptable.
  replace (S (k + i)) with (k + S i)%nat by lia.
  destruct (_ && _)%bool; apply IH.
Qed.

(** X4: once a batch has been processed, offering any of its candidates again
    (in any order, under any source tag) returns no record and leaves the
    processor as it is. *)
Theorem process_ideas_again_is_empty (polarity : string -> option Q)
    (now : nat -> string) (ideas again : list string) (source tag : string)
    (self : IdeaProcessor) :
  (forall idea, In idea again -> In idea ideas) ->
  let after := snd (process_ideas polarity now ideas source self) in
  process_ideas polarity now again tag after = ([], after).
Proof.
  intros Hsub. cbv zeta. unfold process_ideas at 1.
  apply process_loop_nothing_new. intros idea Hin Hok.
  apply process_loop_covers; [apply Hsub; exact Hin|exact Hok].
Qed.

Lemma process_ideas_again_is_empty_witness :
  let ideas := ["Build a weather app with real-time alerts";
                "Develop a recipe recommendation app"] in
  let after := snd (process_ideas sample_polarity (fun _ => "") ideas "reddit"
                      new_processor) in
  process_ideas sample_polarity (fun _ => "") (rev ideas) "twitter" after
  = ([], after).
Proof.
  apply (process_ideas_again_is_empty sample_polarity (fun _ => "")
           ["Build a weather app with real-time alerts";
            "Develop a recipe recommendation app"]).
  intros idea Hin. apply in_rev. exact Hin.
Defined.

(** X5: processing a batch [xs ++ ys] in one call is processing [xs] and then
    [ys] on the processor the first call leaves, the clock of the second call
    read at the positions after [xs]: the records are those of the two calls
    in order, and the final processor is the same. *)
Theorem process_ideas_app (polarity : string -> option Q)
    (now : nat -> string) (xs ys : list string) (source : string)
    (self : IdeaProcessor) :
  let first := process_ideas polarity now xs source self in
  let second := process_ideas polarity (fun j => now (length xs + j)%nat)
                  ys source (snd first) in
  process_ideas polarity now (xs ++ ys) source self
  = (fst first ++ fst second, snd second).
Proof.
  cbv zeta. unfold process_ideas.
  rewrite process_loop_app, process_loop_acc. simpl.
  rewrite <- (process_loop_shift polarity now (length xs) ys source 0),
    Nat.add_0_r.
  reflexivity.
Qed.

(** X6: when every candidate of a batch passes the content checks and the
    cleaned candidates have fingerprints that are pairwise distinct and not
    yet seen, [process_ideas] returns one record for each candidate, in the
    order of the batch. *)
Theorem process_ideas_admits_all (polarity : string -> option Q)
    (now : nat -> string) (ideas : list string) (source : string)
    (self : IdeaProcessor) :
  Forall (fun idea => acceptable idea = true) ideas ->
  NoDup (map (fun idea => fingerprint (clean_text idea)) ideas) ->
  Forall (fun idea => fingerprint (clean_text idea) ∉ seen_ideas self) ideas ->
  map text (fst (process_ideas polarity now ideas source self))
  = map clean_text ideas.
Proof.
  unfold process_ideas. generalize 0%nat as i.
  assert (H : forall i acc self,
    Forall (fun idea => acceptable idea = true) ideas ->
    NoDup (map (fun idea => fingerprint (clean_text idea)) ideas) ->
    Forall (fun idea => fingerprint (clean_text idea) ∉ seen_ideas self) ideas ->
    map text (fst (process_loop polarity now ideas source i acc self))
    = map text acc ++ map clean_text ideas).
  { clear self. induction ideas as [|x ideas' IH]; intros i acc self Hok Hnd Hnew.
    - simpl. rewrite app_nil_r. reflexivity.
    - inversion Hok as [|? ? Hx Hok']; subst.
      inversion Hnd as [|? ? Hnotin Hnd']; subst.
      inversion Hnew as [|? ? Hfresh Hnew']; subst.
      rewrite process_loop_acceptable, Hx.
      rewrite bool_decide_eq_false_2 by exact Hfresh. cbn [andb negb].
      rewrite IH; [| exact Hok' | exact Hnd' |].
      + rewrite map_app. simpl. rewrite <- app_assoc. reflexivity.
      + apply Forall_forall. intros idea Hin. simpl.
        rewrite Forall_forall in Hnew'.
        rewrite elem_of_union, elem_of_singleton.
        intros [Hseen | Heq]; [exact (Hnew' idea Hin Hseen)|].
        apply Hnotin. rewrite <- Heq.
        apply list_elem_of_In, in_map_iff. exists idea.
        split; [reflexivity|apply list_elem_of_In; exact Hin]. }
  intros i Hok Hnd Hnew. rewrite H by assumption. reflexivity.
Qed.

Lemma process_ideas_admits_all_witness :
  map text (fst (process_ideas sample_polarity (fun _ => "")
                   ["Build a weather app with real-time alerts";
                    "Create a project management tool for freelancers";
                    "Develop a recipe recommendation app"]
                   "reddit" new_processor))
  = ["Build a weather app with real-time alerts";
     "Create a project management tool for freelancers";
     "Develop a recipe recommendation app"].
Proof.
  refine (eq_trans (process_ideas_admits_all sample_polarity (fun _ => "")
            ["Build a weather app with real-time alerts";
             "Create a project management tool for freelancers";
             "Develop a recipe recommendation app"]
            "reddit" new_processor _ _ _) _).
  - repeat constructor.
  - apply (bool_decide_unpack _). vm_compute. exact I.
  - repeat constructor; apply not_elem_of_empty.
  - vm_compute. reflexivity.
Defined.


(** ** Settings read from the environment *)

Lemma lstrip_chars_head s c r :
  lstrip_chars s = c :: r -> Unicode.isspace c = false.
Proof.
  induction s as [|a s IH]; [discriminate|].
  simpl. destruct (Unicode.isspace a) eqn:Ha; [exact IH|].
  intros [= <- <-]. exact Ha.
Qed.

Lemma lstrip_chars_id s :
  match s with c :: _ => Unicode.isspace c = false | [] => True end ->
  lstrip_chars s = s.
Proof. destruct s as [|c r]; [reflexivity|]. simpl. intros ->. reflexivity. Qed.

Lemma lstrip_chars_split s : exists pre, s = pre ++ lstrip_chars s.
Proof.
  induction s as [|a s [pre IH]]; [exists []; reflexivity|].
  simpl. destruct (Unicode.isspace a).
  - exists (a :: pre). simpl. f_equal. exact IH.
  - exists []. reflexivity.
Qed.

Lemma strip_chars_fixed s : strip_chars (strip_chars s) = strip_chars s.
Proof.
  unfold strip_chars.
  set (t := lstrip_chars s). set (u := lstrip_chars (rev t)).
  assert (Hu : lstrip_chars u = u).
  { apply lstrip_chars_id. destruct u as [|c r] eqn:E; [exact I|].
    apply (lstrip_chars_head (rev t) c r). exact E. }
  assert (Hr : lstrip_chars (rev u) = rev u).
  { apply lstrip_chars_id. destruct (rev u) as [|c r] eqn:E; [exact I|].
    destruct (lstrip_chars_split (rev t)) as [pre Hpre]. fold u in Hpre.
    apply (f_equal (@rev ascii)) in Hpre.
    rewrite rev_involutive, rev_app_distr, E in Hpre.
    apply (lstrip_chars_head s c (r ++ rev pre)). exact Hpre. }
  rewrite Hr, rev_involutive, Hu. reflexivity.
Qed.

Lemma strip_fixed s : strip (strip s) = strip s.
Proof.
  unfold strip. rewrite chars_of_chars, strip_chars_fixed. reflexivity.
Qed.

Lemma split_sep_chars_nonempty sep s : split_sep_chars sep s <> [].
Proof.
  destruct s as [|c r]; [discriminate|]. simpl.
  case_bool_decide; [discriminate|].
  destruct (split_sep_chars sep r); discriminate.
Qed.

Lemma split_sep_chars_field sep w rest :
  ~ In sep w ->
  split_sep_chars sep (w ++ sep :: rest) = w :: split_sep_chars sep rest.
Proof.
  induction w as [|c w IH]; intros Hw.
  - simpl. rewrite bool_decide_eq_true_2 by reflexivity. reflexivity.
  - simpl. rewrite bool_decide_eq_false_2
      by (intros ->; apply Hw; left; reflexivity).
    rewrite IH by (intros H; apply Hw; right; exact H). reflexivity.
Qed.

Lemma split_sep_chars_last sep w :
  ~ In sep w -> split_sep_chars sep w = [w].
Proof.
  induction w as [|c w IH]; intros Hw; [reflexivity|].
  simpl. rewrite bool_decide_eq_false_2
    by (intros ->; apply Hw; left; reflexivity).
  rewrite IH by (intros H; apply Hw; right; exact H). reflexivity.
Qed.

Lemma split_sep_chars_join sep ws :
  ws <> [] -> Forall (fun w => ~ In sep w) ws ->
  split_sep_chars sep (join_chars [sep] ws) = ws.
Proof.
  induction ws as [|w ws IH]; intros Hne Hws; [contradiction|].
  inversion Hws as [|? ? Hw Hws']; subst.
  destruct ws as [|w' ws'].
  - simpl. apply split_sep_chars_last. exact Hw.
  - change (join_chars [sep] (w :: w' :: ws'))
      with (w ++ sep :: join_chars [sep] (w' :: ws')).
    rewrite split_sep_chars_field by exact Hw.
    rewrite IH by (try discriminate; exact Hws'). reflexivity.
Qed.

Lemma map_of_chars_chars (l : list string) : map of_chars (map chars l) = l.
Proof.
  induction l as [|x l IH]; [reflexivity|].
  simpl. rewrite of_chars_chars, IH. reflexivity.
Qed.

Lemma split_sep_join sep (fields : list string) :
  fields <> [] -> Forall (fun f => ~ In sep (chars f)) fields ->
  split_sep sep (join (of_chars [sep]) fields) = fields.
Proof.
  intros Hne Hf. unfold split_sep, join. rewrite !chars_of_chars.
  rewrite split_sep_chars_join.
  - apply map_of_chars_chars.
  - destruct fields; [contradiction|discriminate].
  - apply Forall_forall. intros w Hw.
    apply list_elem_of_In, in_map_iff in Hw. destruct Hw as (f & <- & Hin).
    rewrite Forall_forall in Hf. apply Hf, list_elem_of_In. exact Hin.
Qed.

(** X7: [get_keywords] and [get_subreddits] never return an empty list,
    whatever the environment holds, and no entry they return has white space
    at either end. *)
Theorem settings_nonempty_and_stripped (getenv : string -> option string) :
  get_keywords getenv <> []
  /\ get_subreddits getenv <> []
  /\ Forall (fun kw => strip kw = kw) (get_keywords getenv)
  /\ Forall (fun sub => strip sub = sub) (get_subreddits getenv).
Proof.
  assert (Hne : forall s, map (fun x => strip x) (split_sep "," s) <> []).
  { intros s H. apply map_eq_nil in H. unfold split_sep in H.
    apply map_eq_nil in H. exact (split_sep_chars_nonempty _ _ H). }
  assert (Hst : forall s, Forall (fun x => strip x = x)
                            (map (fun x => strip x) (split_sep "," s))).
  { intros s. apply Forall_forall. intros x Hx.
    apply list_elem_of_In, in_map_iff in Hx. destruct Hx as (y & <- & _).
    apply strip_fixed. }
  unfold get_keywords, get_subreddits.
  destruct (getenv "SPARKSCRAPER_KEYWORDS") as [k|];
    destruct (getenv "SPARKSCRAPER_SUBREDDITS") as [r|];
    repeat case_bool_decide;
    repeat split; try apply Hne; try apply Hst; try discriminate;
    repeat constructor.
Qed.

(** X8: a list written into the environment variable is read back: when
    [SPARKSCRAPER_KEYWORDS] holds the entries of a non-empty list joined by
    commas, no entry containing a comma and the whole not the empty string,
    [get_keywords] returns the entries, each stripped of the white space
    around it; the same for [get_subreddits] and [SPARKSCRAPER_SUBREDDITS]. *)
Theorem settings_read_back (getenv : string -> option string)
    (entries : list string) :
  entries <> [] ->
  Forall (fun e => ~ In ","%char (chars e)) entries ->
  join "," entries <> "" ->
  (getenv "SPARKSCRAPER_KEYWORDS" = Some (join "," entries) ->
   get_keywords getenv = map (fun e => strip e) entries)
  /\ (getenv "SPARKSCRAPER_SUBREDDITS" = Some (join "," entries) ->
      get_subreddits getenv = map (fun e => strip e) entries).
Proof.
  intros Hne Hcomma Hjoin.
  pose proof (split_sep_join ","%char entries Hne Hcomma) as Hsplit.
  change (of_chars [","%char]) with ","%string in Hsplit.
  unfold get_keywords, get_subreddits.
  split; intros ->; rewrite bool_decide_eq_false_2 by exact Hjoin;
    rewrite Hsplit; reflexivity.
Qed.

Lemma settings_read_back_witness :
  get_keywords (one_variable "SPARKSCRAPER_KEYWORDS" "app ideas, side project ,ai")
  = ["app ideas"; "side project"; "ai"].
Proof.
  refine (eq_trans (proj1 (settings_read_back
    (one_variable "SPARKSCRAPER_KEYWORDS" "app ideas, side project ,ai")
    ["app ideas"; " side project "; "ai"] _ _ _) _) _).
  - discriminate.
  - repeat constructor; vm_compute; intuition discriminate.
  - vm_compute. discriminate.
  - vm_compute. reflexivity.
  - vm_compute. reflexivity.
Defined.


(** ** Letter case *)

Lemma tolower_fixed c : Unicode.tolower (Unicode.tolower c) = Unicode.tolower c.
Proof. destruct c as [[] [] [] [] [] [] [] []]; vm_compute; reflexivity. Qed.

Lemma isspace_tolower c : Unicode.isspace (Unicode.tolower c) = Unicode.isspace c.
Proof. destruct c as [[] [] [] [] [] [] [] []]; vm_compute; reflexivity. Qed.

Lemma lower_fixed s : lower (lower s) = lower s.
Proof.
  unfold lower. rewrite chars_of_chars, map_map. f_equal.
  apply map_ext. intros c. apply tolower_fixed.
Qed.

Lemma split_go_tolower cur s :
  split_go (map Unicode.tolower cur) (map Unicode.tolower s)
  = map (map Unicode.tolower) (split_go cur s).
Proof.
  revert cur. induction s as [|c r IH]; intros cur; simpl.
  - destruct cur; simpl; [reflexivity|].
    rewrite map_app, map_rev. reflexivity.
  - rewrite isspace_tolower. destruct (Unicode.isspace c).
    + destruct cur; simpl; [apply (IH [])|].
      rewrite map_app, map_rev. simpl. f_equal. apply (IH []).
    + apply (IH (c :: cur)).
Qed.

Lemma split_lower_length s : length (split (lower s)) = length (split s).
Proof.
  unfold split, lower, split_chars. rewrite chars_of_chars, !length_map.
  pose proof (split_go_tolower [] (chars s)) as H. simpl in H.
  rewrite H, length_map. reflexivity.
Qed.

(** X9: texts that differ only in letter case are not told apart by the
    quality filter, the duplicate detector or the categoriser: on the same
    processor each of [filter_idea], [is_duplicate] and [categorize_idea]
    gives the same result for both, and leaves the same processor. *)
Theorem letter_case_is_ignored (a b : string) (self : IdeaProcessor) :
  lower a = lower b ->
  filter_idea a self = filter_idea b self
  /\ is_duplicate a self = is_duplicate b self
  /\ categorize_idea self a = categorize_idea self b.
Proof.
  intros Hab.
  assert (Hfp : fingerprint a = fingerprint b).
  { unfold fingerprint. rewrite Hab. reflexivity. }
  assert (Hwc : length (split a) = length (split b)).
  { rewrite <- (split_lower_length a), <- (split_lower_length b), Hab.
    reflexivity. }
  split; [|split].
  - rewrite !filter_idea_unfold, Hfp. unfold within_bounds, blacklisted.
    rewrite Hwc, Hab. reflexivity.
  - rewrite !is_duplicate_unfold, Hfp. reflexivity.
  - unfold categorize_idea. rewrite Hab. reflexivity.
Qed.

Lemma letter_case_is_ignored_witness :
  filter_idea "BUILD A Weather APP Today" new_processor
  = filter_idea "build a weather app today" new_processor.
Proof.
  apply (letter_case_is_ignored "BUILD A Weather APP Today"
           "build a weather app today" new_processor).
  vm_compute. reflexivity.
Defined.


(** ** URLs in [clean_text] *)

Lemma literal_prefix p s r : Re.literal p s = Some r -> s = p ++ r.
Proof.
  revert s. induction p as [|a p IH]; intros s; simpl.
  - intros [= ->]. reflexivity.
  - destruct s as [|b s']; [discriminate|].
    case_bool_decide; [|discriminate]. subst b.
    intros E. rewrite (IH s' E). reflexivity.
Qed.

Lemma run_length_app_url u r :
  Forall (fun c => url_char c = true) u ->
  run_length (u ++ r) = (length u + run_length r)%nat.
Proof.
  induction 1 as [|c u Hc _ IH]; [reflexivity|].
  simpl. rewrite Hc, IH. reflexivity.
Qed.

Lemma run_length_starts_nonurl r : starts_nonurl r = true -> run_length r = 0%nat.
Proof.
  destruct r as [|c r]; [reflexivity|]. simpl.
  destruct (url_char c); [discriminate|reflexivity].
Qed.

Lemma ends_nonurl_cons a r :
  url_char a = true -> ends_nonurl (a :: r) = true ->
  ends_nonurl r = true.
Proof.
  intros Ha. simpl. destruct r as [|b r']; [|auto].
  rewrite Ha. discriminate.
Qed.

Lemma run_length_ends_nonurl r s :
  ends_nonurl r = true -> run_length (r ++ s) = run_length r.
Proof.
  induction r as [|a r IH]; [discriminate|]. intros He.
  cbn [app run_length]. destruct (url_char a) eqn:Ha; [|reflexivity].
  rewrite IH; [reflexivity|]. eapply ends_nonurl_cons; eassumption.
Qed.

Lemma literal_app p pre s :
  Forall (fun c => url_char c = true) p -> ends_nonurl pre = true ->
  Re.literal p (pre ++ s) = (fun r => r ++ s) <$> Re.literal p pre
  /\ forall r, Re.literal p pre = Some r -> ends_nonurl r = true.
Proof.
  intros Hp. revert pre. induction Hp as [|a p Ha _ IH]; intros pre He.
  - simpl. split; [reflexivity|]. intros r [= <-]. exact He.
  - destruct pre as [|b pre']; [discriminate|]. cbn [app Re.literal].
    case_bool_decide as Hab; [|split; [reflexivity|discriminate]].
    subst b. apply IH. eapply ends_nonurl_cons; eassumption.
Qed.

Lemma url_tail_run_length s :
  Re.url_tail s =
  match Re.literal (chars "://") s with
  | Some r => match run_length r with
              | O => None
              | n => Some (3 + n)%nat
              end
  | None => None
  end.
Proof.
  unfold Re.url_tail. destruct (Re.literal _ s) as [r|]; [|reflexivity].
  rewrite url_steps_run_length by lia. reflexivity.
Qed.

Lemma url_chars_colon_slashes :
  Forall (fun c => url_char c = true) (chars "://").
Proof. repeat constructor. Qed.

Lemma url_chars_http : Forall (fun c => url_char c = true) (chars "http").
Proof. repeat constructor. Qed.

Lemma url_tail_app r s :
  ends_nonurl r = true -> Re.url_tail (r ++ s) = Re.url_tail r.
Proof.
  intros He. rewrite !url_tail_run_length.
  destruct (literal_app (chars "://") r s url_chars_colon_slashes He)
    as [-> Hends].
  destruct (Re.literal (chars "://") r) as [r2|]; [|reflexivity].
  simpl. rewrite run_length_ends_nonurl by (apply Hends; reflexivity).
  reflexivity.
Qed.

Lemma url_tail_bound r n :
  Re.url_tail r = Some n -> (n <= run_length r)%nat.
Proof.
  rewrite url_tail_run_length.
  destruct (Re.literal (chars "://") r) as [r2|] eqn:E; [|discriminate].
  apply literal_prefix in E. subst r.
  rewrite (run_length_app_url _ _ url_chars_colon_slashes).
  destruct (run_length r2); [discriminate|]. intros [= <-]. simpl. lia.
Qed.

Lemma url_match_app pre s :
  ends_nonurl pre = true -> Re.url_match (pre ++ s) = Re.url_match pre.
Proof.
  intros He. unfold Re.url_match.
  destruct (literal_app (chars "http") pre s url_chars_http He) as [-> Hends].
  destruct (Re.literal (chars "http") pre) as [r|]; [|reflexivity].
  specialize (Hends r eq_refl). cbn [fmap option_fmap option_map].
  rewrite (url_tail_app r s Hends).
  destruct r as [|c r']; [discriminate|]. cbn [app].
  case_bool_decide as Hc; [|reflexivity]. subst c.
  rewrite (url_tail_app r' s); [reflexivity|].
  eapply ends_nonurl_cons; [|exact Hends]. reflexivity.
Qed.

Lemma url_match_bound pre n :
  Re.url_match pre = Some n -> (n <= run_length pre)%nat.
Proof.
  unfold Re.url_match.
  destruct (Re.literal (chars "http") pre) as [r|] eqn:E; [|discriminate].
  apply literal_prefix in E. subst pre.
  rewrite (run_length_app_url _ _ url_chars_http).
  assert (Hwithout : forall m, (Nat.add 4) <$> Re.url_tail r = Some m ->
                               (m <= length (chars "http") + run_length r)%nat).
  { intros m. destruct (Re.url_tail r) as [k|] eqn:Ek; [|discriminate].
    intros [= <-]. apply url_tail_bound in Ek. simpl. lia. }
  destruct r as [|c r']; [apply Hwithout|].
  case_bool_decide as Hc; [|apply Hwithout]. subst c.
  destruct (Re.url_tail r') as [k|] eqn:Ek; [|apply Hwithout].
  intros [= <-]. apply url_tail_bound in Ek. simpl. lia.
Qed.

Lemma sub_url_go_app pre s k :
  ends_nonurl pre = true -> (k <= run_length pre)%nat ->
  Re.sub_url_go k (pre ++ s) = Re.sub_url_go k pre ++ Re.sub_url_go 0 s.
Proof.
  revert k. induction pre as [|a pre2 IH]; intros k He Hk; [discriminate|].
  assert (Hskip : forall j, (S j <= run_length (a :: pre2))%nat ->
            Re.sub_url_go j (pre2 ++ s)
            = Re.sub_url_go j pre2 ++ Re.sub_url_go 0 s).
  { intros j Hj. simpl in Hj. destruct (url_char a) eqn:Ha; [|lia].
    apply IH; [eapply ends_nonurl_cons; eassumption|lia]. }
  destruct k as [|k'].
  - cbn [app Re.sub_url_go].
    change (a :: pre2 ++ s) with ((a :: pre2) ++ s).
    rewrite (url_match_app (a :: pre2) s He).
    destruct (Re.url_match (a :: pre2)) as [[|j]|] eqn:Em.
    + destruct pre2 as [|b pre3]; [reflexivity|].
      rewrite IH; [reflexivity|exact He|lia].
    + apply Hskip. apply (url_match_bound _ _ Em).
    + destruct pre2 as [|b pre3]; [reflexivity|].
      rewrite IH; [reflexivity|exact He|lia].
  - cbn [app Re.sub_url_go]. apply Hskip. exact Hk.
Qed.

Lemma sub_url_app pre s :
  pre = [] \/ ends_nonurl pre = true ->
  Re.sub_url (pre ++ s) = Re.sub_url pre ++ Re.sub_url s.
Proof.
  intros [-> | He]; [reflexivity|].
  apply sub_url_go_app; [exact He|lia].
Qed.

Lemma sub_url_go_skip u rest :
  Re.sub_url_go (length u) (u ++ rest) = Re.sub_url_go 0 rest.
Proof.
  induction u as [|c u IH]; [reflexivity|]. simpl. exact IH.
Qed.


Lemma literal_exact p r : Re.literal p (p ++ r) = Some r.
Proof.
  induction p as [|a p IH]; [reflexivity|].
  simpl. rewrite bool_decide_eq_true_2 by reflexivity. exact IH.
Qed.

Lemma url_tail_exact x n :
  run_length x = S n ->
  Re.url_tail (":"%char :: "/"%char :: "/"%char :: x) = Some (3 + S n)%nat.
Proof.
  intros Hx. rewrite url_tail_run_length.
  change (":"%char :: "/"%char :: "/"%char :: x) with (chars "://" ++ x).
  rewrite literal_exact, Hx. reflexivity.
Qed.

Lemma url_match_whole scheme u rest :
  scheme = "http://"%string \/ scheme = "https://"%string ->
  u <> [] -> Forall (fun c => url_char c = true) u ->
  starts_nonurl rest = true ->
  Re.url_match (chars scheme ++ u ++ rest)
  = Some (length (chars scheme) + length u)%nat.
Proof.
  intros Hscheme Hne Hu Hrest.
  assert (Hrun : run_length (u ++ rest) = length u).
  { rewrite (run_length_app_url u rest Hu),
      (run_length_starts_nonurl rest Hrest). lia. }
  destruct u as [|c u']; [contradiction|].
  set (x := (c :: u') ++ rest) in *. simpl length in *.
  unfold Re.url_match. destruct Hscheme as [-> | ->].
  - change (chars "http://" ++ x) with (chars "http" ++ ":"%char :: "/"%char :: "/"%char :: x).
    rewrite literal_exact.
    rewrite bool_decide_eq_false_2 by discriminate.
    rewrite (url_tail_exact x _ Hrun). reflexivity.
  - change (chars "https://" ++ x)
      with (chars "http" ++ "s"%char :: ":"%char :: "/"%char :: "/"%char :: x).
    rewrite literal_exact.
    rewrite bool_decide_eq_true_2 by reflexivity.
    rewrite (url_tail_exact x _ Hrun). reflexivity.
Qed.

Lemma sub_url_whole_url scheme u rest :
  scheme = "http://"%string \/ scheme = "https://"%string ->
  u <> [] -> Forall (fun c => url_char c = true) u ->
  starts_nonurl rest = true ->
  Re.sub_url (chars scheme ++ u ++ rest) = Re.sub_url rest.
Proof.
  intros Hscheme Hne Hu Hrest.
  pose proof (url_match_whole scheme u rest Hscheme Hne Hu Hrest) as Hm.
  unfold Re.sub_url.
  assert (Hs : exists tl, chars scheme = "h"%char :: tl).
  { destruct Hscheme as [-> | ->]; eexists; reflexivity. }
  destruct Hs as [tl Htl]. rewrite Htl in *.
  cbn [app Re.sub_url_go].
  change ("h"%char :: tl ++ u ++ rest) with (("h"%char :: tl) ++ u ++ rest).
  rewrite Hm. cbn [length Nat.add].
  rewrite app_assoc, <- length_app. apply sub_url_go_skip.
Qed.

(** X10: a URL that stands alone is removed whole: for an input in which
    [http://] or [https://] is followed by one or more characters the URL
    pattern accepts, the text before it being empty or ending with a
    character the pattern does not accept (a space, say) and the text after
    it being empty or starting with one, [clean_text] returns what it returns
    for the input without the URL. *)
Theorem clean_text_drops_url (before after u : list ascii) (scheme : string) :
  scheme = "http://"%string \/ scheme = "https://"%string ->
  before = [] \/ ends_nonurl before = true ->
  u <> [] -> Forall (fun c => url_char c = true) u ->
  starts_nonurl after = true ->
  clean_text (of_chars (before ++ chars scheme ++ u ++ after))
  = clean_text (of_chars (before ++ after)).
Proof.
  intros Hscheme Hbefore Hne Hu Hafter. unfold clean_text.
  rewrite !chars_of_chars.
  rewrite (sub_url_app before (chars scheme ++ u ++ after) Hbefore).
  rewrite (sub_url_app before after Hbefore).
  rewrite sub_url_whole_url by assumption. reflexivity.
Qed.

Lemma clean_text_drops_url_witness :
  clean_text "see https://foo.bar/x?y=1 now" = clean_text "see  now".
Proof.
  exact (clean_text_drops_url (chars "see ") (chars " now")
           (chars "foo.bar/x?y=1") "https://"
           (or_intror eq_refl) (or_intror eq_refl)
           ltac:(discriminate) ltac:(repeat constructor) eq_refl).
Defined.


(** ** Collecting from the sources *)

(** Closes the conjunctions that say where a collected text came from. *)
Ltac found :=
  repeat match goal with H : _ /\ _ |- _ => destruct H end;
  repeat split;
  first [assumption | reflexivity | left; reflexivity | right; assumption].

Lemma collect_texts_filter texts all_ideas :
  collect_texts texts all_ideas
  = all_ideas ++ List.filter mentions_project_or_idea texts.
Proof.
  revert all_ideas. induction texts as [|t texts IH]; intros all_ideas; simpl.
  - rewrite app_nil_r. reflexivity.
  - destruct (mentions_project_or_idea t); rewrite IH; [|reflexivity].
    rewrite <- app_assoc. reflexivity.
Qed.

Lemma collect_posts_filter posts all_ideas :
  collect_posts posts all_ideas
  = all_ideas
    ++ List.filter mentions_project_or_idea (map (fun p => strip p) posts).
Proof.
  revert all_ideas. induction posts as [|p posts IH]; intros all_ideas; simpl.
  - rewrite app_nil_r. reflexivity.
  - destruct (mentions_project_or_idea (strip p)); rewrite IH; [|reflexivity].
    rewrite <- app_assoc. reflexivity.
Qed.

Lemma twitter_keywords_In search_tweets keywords all_ideas raw :
  In raw (twitter_keywords search_tweets keywords all_ideas) ->
  In raw all_ideas
  \/ exists keyword tweets,
       In keyword keywords /\ search_tweets keyword = Some tweets
       /\ In raw tweets /\ mentions_project_or_idea raw = true.
Proof.
  revert all_ideas. induction keywords as [|k keywords IH]; intros all_ideas;
    [simpl; auto|].
  simpl. destruct (search_tweets k) as [tweets|] eqn:Ek; intros H;
    apply IH in H; destruct H as [H | (k' & tw & Hk & Hs & Hin & Hm)].
  - rewrite collect_texts_filter in H. apply in_app_iff in H.
    destruct H as [H|H]; [left; exact H|]. apply filter_In in H.
    right. exists k, tweets. found.
  - right. exists k', tw. found.
  - left. exact H.
  - right. exists k', tw. found.
Qed.

Lemma reddit_keywords_In search keywords all_ideas raw :
  In raw (reddit_keywords search keywords all_ideas) ->
  In raw all_ideas
  \/ exists keyword,
       In keyword keywords /\ In raw (search keyword)
       /\ mentions_project_or_idea raw = true.
Proof.
  revert all_ideas. induction keywords as [|k keywords IH]; intros all_ideas;
    [simpl; auto|].
  simpl. intros H. apply IH in H. destruct H as [H | (k' & Hk & Hin & Hm)].
  - rewrite collect_texts_filter in H. apply in_app_iff in H.
    destruct H as [H|H]; [left; exact H|]. apply filter_In in H.
    right. exists k. found.
  - right. exists k'. found.
Qed.

Lemma reddit_subreddits_In subreddit subreddits keywords all_ideas raw :
  In raw (reddit_subreddits subreddit subreddits keywords all_ideas) ->
  In raw all_ideas
  \/ exists name search keyword,
       In name subreddits /\ subreddit name = Some search
       /\ In keyword keywords /\ In raw (search keyword)
       /\ mentions_project_or_idea raw = true.
Proof.
  revert all_ideas. induction subreddits as [|n subreddits IH];
    intros all_ideas; [simpl; auto|].
  simpl. destruct (subreddit n) as [search|] eqn:En; intros H;
    apply IH in H;
    destruct H as [H | (n' & s' & k' & Hn & Hs & Hk & Hin & Hm)].
  - apply reddit_keywords_In in H. destruct H as [H | (k & Hk & Hin & Hm)];
      [left; exact H|].
    right. exists n, search, k. found.
  - right. exists n', s', k'. found.
  - left. exact H.
  - right. exists n', s', k'. found.
Qed.

Lemma linkedin_page_In find_all selectors all_ideas raw :
  In raw (linkedin_page find_all selectors all_ideas) ->
  In raw all_ideas
  \/ exists class_ post,
       In post (find_all class_) /\ raw = strip post
       /\ mentions_project_or_idea raw = true.
Proof.
  revert all_ideas. induction selectors as [|sel selectors IH];
    intros all_ideas; [simpl; auto|].
  simpl. destruct (split_sep "." sel) as [|x [|cls rest]]; auto.
  intros H. apply IH in H. destruct H as [H | H]; [|right; exact H].
  rewrite collect_posts_filter in H. apply in_app_iff in H.
  destruct H as [H|H]; [left; exact H|]. apply filter_In in H.
  destruct H as [H Hm]. apply in_map_iff in H. destruct H as (post & <- & Hp).
  right. exists cls, post. found.
Qed.

Lemma linkedin_keywords_In linkedin_soup keywords all_ideas raw :
  In raw (linkedin_keywords linkedin_soup keywords all_ideas) ->
  In raw all_ideas
  \/ exists keyword find_all class_ post,
       In keyword keywords /\ linkedin_soup keyword = Some find_all
       /\ In post (find_all class_) /\ raw = strip post
       /\ mentions_project_or_idea raw = true.
Proof.
  revert all_ideas. induction keywords as [|k keywords IH]; intros all_ideas;
    [simpl; auto|].
  cbn [linkedin_keywords].
  destruct (linkedin_soup k) as [find_all|] eqn:Ek; intros H;
    apply IH in H;
    destruct H as [H | (k' & f' & c' & p' & Hk & Hs & Hp & Hr & Hm)].
  - apply linkedin_page_In in H.
    destruct H as [H | (cls & post & Hp & Hr & Hm)]; [left; exact H|].
    right. exists k, find_all, cls, post. found.
  - right. exists k', f', c', p'. found.
  - left. exact H.
  - right. exists k', f', c', p'. found.
Qed.

Lemma process_ideas_origin polarity now ideas tag self :
  Forall (fun r => source r = tag
                   /\ exists idea, In idea ideas /\ text r = clean_text idea)
         (fst (process_ideas polarity now ideas tag self)).
Proof.
  unfold process_ideas.
  destruct (process_loop_emits polarity now ideas tag 0 [] self)
    as (new & Hout & _ & Hfrom & _).
  rewrite Hout. simpl. eapply Forall_impl; [exact Hfrom|].
  intros r (k & idea & Hk & ->). simpl. split; [reflexivity|].
  exists idea. split; [|reflexivity]. eapply nth_error_In. exact Hk.
Qed.

(** X11: the scrapers only emit what their pre-filter let through: every
    record [scrape_twitter_enhanced] returns is tagged "twitter" and its text
    is the cleaned text of a tweet that was returned for one of the keywords
    and mentions "project" or "idea" (in any letter case);
    [scrape_reddit_enhanced] likewise with the tag "reddit" and the titles
    found in the subreddits that could be opened; [scrape_linkedin_enhanced]
    with the tag "linkedin" and the stripped texts of the elements found on
    the pages that could be fetched. *)
Theorem scrapers_emit_relevant (polarity : string -> option Q)
    (clock : string -> nat -> string)
    (reddit : option (string -> option (string -> list string)))
    (twitter_api : option (string -> option (list string)))
    (linkedin_soup : string -> option (string -> list string))
    (subreddits keywords : list string) (self : IdeaProcessor) :
  Forall (fun r =>
            source r = "reddit"
            /\ exists subreddit name search keyword raw,
                 reddit = Some subreddit
                 /\ In name subreddits /\ subreddit name = Some search
                 /\ In keyword keywords /\ In raw (search keyword)
                 /\ mentions_project_or_idea raw = true
                 /\ text r = clean_text raw)
         (fst (scrape_reddit_enhanced polarity clock reddit
                 subreddits keywords self))
  /\ Forall (fun r =>
               source r = "twitter"
               /\ exists search_tweets keyword tweets raw,
                    twitter_api = Some search_tweets
                    /\ In keyword keywords
                    /\ search_tweets keyword = Some tweets /\ In raw tweets
                    /\ mentions_project_or_idea raw = true
                    /\ text r = clean_text raw)
            (fst (scrape_twitter_enhanced polarity clock twitter_api
                    keywords self))
  /\ Forall (fun r =>
               source r = "linkedin"
               /\ exists keyword find_all class_ post,
                    In keyword keywords
                    /\ linkedin_soup keyword = Some find_all
                    /\ In post (find_all class_)
                    /\ mentions_project_or_idea (strip post) = true
                    /\ text r = clean_text (strip post))
            (fst (scrape_linkedin_enhanced polarity clock linkedin_soup
                    keywords self)).
Proof.
  split; [|split].
  - unfold scrape_reddit_enhanced. destruct reddit as [subreddit|];
      [|constructor].
    eapply Forall_impl; [apply process_ideas_origin|].
    intros r (Hsrc & raw & Hin & Htext). split; [exact Hsrc|].
    apply reddit_subreddits_In in Hin.
    destruct Hin as [[] | (name & search & k & Hn & Hs & Hk & Hr & Hm)].
    exists subreddit, name, search, k, raw. found.
  - unfold scrape_twitter_enhanced. destruct twitter_api as [search_tweets|];
      [|constructor].
    eapply Forall_impl; [apply process_ideas_origin|].
    intros r (Hsrc & raw & Hin & Htext). split; [exact Hsrc|].
    apply twitter_keywords_In in Hin.
    destruct Hin as [[] | (k & tweets & Hk & Hs & Hr & Hm)].
    exists search_tweets, k, tweets, raw. found.
  - unfold scrape_linkedin_enhanced.
    eapply Forall_impl; [apply process_ideas_origin|].
    intros r (Hsrc & raw & Hin & Htext). split; [exact Hsrc|].
    apply linkedin_keywords_In in Hin.
    destruct Hin as [[] | (k & find_all & cls & post & Hk & Hs & Hp & Hr & Hm)].
    subst raw. exists k, find_all, cls, post. found.
Qed.


(** ** Saving and running *)

Lemma save_output_loop_empty formats opened :
  snd (save_output_loop [] formats opened) = None.
Proof.
  revert opened. induction formats as [|f formats IH]; intros opened;
    [reflexivity|].
  cbn [save_output_loop generate_csv]. repeat case_bool_decide; apply IH.
Qed.

Lemma save_output_loop_raises idea ideas formats opened :
  In "csv"%string formats ->
  snd (save_output_loop (idea :: ideas) formats opened) = Some "NameError"%string.
Proof.
  revert opened. induction formats as [|f formats IH]; intros opened; [intros []|].
  intros Hin. cbn [save_output_loop generate_csv].
  case_bool_decide as Hmd; [|case_bool_decide as Hjs;
                               [|case_bool_decide as Hcsv]].
  - apply IH. destruct Hin as [H|H]; [congruence|exact H].
  - apply IH. destruct Hin as [H|H]; [congruence|exact H].
  - reflexivity.
  - apply IH. destruct Hin as [H|H]; [congruence|exact H].
Qed.

Lemma save_output_loop_quiet ideas formats opened :
  ~ In "csv"%string formats ->
  snd (save_output_loop ideas formats opened) = None.
Proof.
  revert opened. induction formats as [|f formats IH]; intros opened Hin;
    [reflexivity|].
  assert (Hrest : ~ In "csv"%string formats)
    by (intros H; apply Hin; right; exact H).
  cbn [save_output_loop].
  case_bool_decide as Hmd; [apply IH; exact Hrest|].
  case_bool_decide as Hjs; [apply IH; exact Hrest|].
  case_bool_decide as Hcsv; [|apply IH; exact Hrest].
  exfalso. apply Hin. left. exact Hcsv.
Qed.





Section RunFacts.

Variable getenv : string -> option string.
Variable polarity : string -> option Q.
Variable clock : string -> nat -> string.
Variable reddit : option (string -> option (string -> list string)).
Variable twitter_api : option (string -> option (list string)).
Variable linkedin_soup : string -> option (string -> list string).

Lemma scrape_reddit_adds subreddits keywords self :
  adds self
    (fst (scrape_reddit_enhanced polarity clock reddit subreddits keywords self))
    (snd (scrape_reddit_enhanced polarity clock reddit subreddits keywords self))
  /\ Forall (fun r => source r = "reddit"%string)
       (fst (scrape_reddit_enhanced polarity clock reddit subreddits keywords self)).
Proof.
  unfold scrape_reddit_enhanced. destruct reddit as [subreddit|].
  - split; [apply process_ideas_adds|].
    eapply Forall_impl; [apply process_ideas_origin|]. intros r [H _]. exact H.
  - split; [apply adds_nothing|constructor].
Qed.

Lemma scrape_twitter_adds keywords self :
  adds self
    (fst (scrape_twitter_enhanced polarity clock twitter_api keywords self))
    (snd (scrape_twitter_enhanced polarity clock twitter_api keywords self))
  /\ Forall (fun r => source r = "twitter"%string)
       (fst (scrape_twitter_enhanced polarity clock twitter_api keywords self)).
Proof.
  unfold scrape_twitter_enhanced. destruct twitter_api as [search_tweets|].
  - split; [apply process_ideas_adds|].
    eapply Forall_impl; [apply process_ideas_origin|]. intros r [H _]. exact H.
  - split; [apply adds_nothing|constructor].
Qed.

Lemma scrape_linkedin_adds keywords self :
  adds self
    (fst (scrape_linkedin_enhanced polarity clock linkedin_soup keywords self))
    (snd (scrape_linkedin_enhanced polarity clock linkedin_soup keywords self))
  /\ Forall (fun r => source r = "linkedin"%string)
       (fst (scrape_linkedin_enhanced polarity clock linkedin_soup keywords self)).
Proof.
  unfold scrape_linkedin_enhanced.
  split; [apply process_ideas_adds|].
  eapply Forall_impl; [apply process_ideas_origin|]. intros r [H _]. exact H.
Qed.

End RunFacts.

(** X13: [run] collects what the three scrapers return, called one after
    the other on the one processor: the Reddit records, then the Twitter
    records, then the LinkedIn records. Every one of them meets the quality
    criteria and no two of them, from the same source or from different
    ones, have the same fingerprint. [run] hands this list to [save_output]
    and leaves the processor as the last scraper left it. When "csv" is among
    the output formats and the list is not empty, it raises [NameError] from
    [save_output]. Otherwise it prints its three closing lines and returns
    the list, unless one of the lines cannot be printed: then it raises what
    the first such [print] raises. It never returns another list. *)
Theorem run_collects_distinct_ideas (getenv : string -> option string)
    (polarity : string -> option Q) (clock : string -> nat -> string)
    (reddit : option (string -> option (string -> list string)))
    (twitter_api : option (string -> option (list string)))
    (linkedin_soup : string -> option (string -> list string))
    (print : list Z -> option string)
    (keywords subreddits output_formats : option (list string))
    (self : IdeaProcessor) :
  let kws := match keywords with None => get_keywords getenv | Some k => k end in
  let subs :=
    match subreddits with None => get_subreddits getenv | Some s => s end in
  let asked :=
    match output_formats with None => ["markdown"] | Some f => f end in
  let from_reddit :=
    scrape_reddit_enhanced polarity clock reddit subs kws self in
  let from_twitter :=
    scrape_twitter_enhanced polarity clock twitter_api kws (snd from_reddit) in
  let from_linkedin :=
    scrape_linkedin_enhanced polarity clock linkedin_soup kws
      (snd from_twitter) in
  let all_ideas := fst from_reddit ++ fst from_twitter ++ fst from_linkedin in
  let finished :=
    run getenv polarity clock reddit twitter_api linkedin_soup print
      keywords subreddits output_formats self in
  let result := snd (fst finished) in
  Forall (fun r => source r = "reddit") (fst from_reddit)
  /\ Forall (fun r => source r = "twitter") (fst from_twitter)
  /\ Forall (fun r => source r = "linkedin") (fst from_linkedin)
  /\ Forall meets_criteria all_ideas
  /\ NoDup (map record_fingerprint all_ideas)
  /\ snd finished = snd from_linkedin
  /\ fst (fst finished) = fst (save_output all_ideas (Some asked))
  /\ (all_ideas <> [] /\ In "csv" asked -> result = Raised "NameError")
  /\ (all_ideas = [] \/ ~ In "csv" asked ->
      result = match first_failure print
                       [completed_line; total_line all_ideas;
                        formats_line asked] with
               | Some exception => Raised exception
               | None => Returned all_ideas
               end)
  /\ (forall ideas, result = Returned ideas -> ideas = all_ideas).
Proof.
  cbv zeta. unfold run, bind.
  set (kws := match keywords with None => get_keywords getenv | Some k => k end).
  set (subs := match subreddits with
               | None => get_subreddits getenv | Some s => s end).
  set (asked := match output_formats with
                | None => ["markdown"%string] | Some f => f end).
  destruct (scrape_reddit_adds polarity clock reddit subs kws self) as [A1 T1].
  destruct (scrape_reddit_enhanced polarity clock reddit subs kws self)
    as [r s1].
  cbn [fst snd] in *.
  destruct (scrape_twitter_adds polarity clock twitter_api kws s1) as [A2 T2].
  destruct (scrape_twitter_enhanced polarity clock twitter_api kws s1)
    as [t s2].
  cbn [fst snd] in *.
  destruct (scrape_linkedin_adds polarity clock linkedin_soup kws s2)
    as [A3 T3].
  destruct (scrape_linkedin_enhanced polarity clock linkedin_soup kws s2)
    as [l s3].
  cbn [fst snd] in *.
  destruct (adds_trans _ _ _ _ _ A1 (adds_trans _ _ _ _ _ A2 A3))
    as (Hall & Hnd & _).
  split; [exact T1|]. split; [exact T2|]. split; [exact T3|].
  split; [exact Hall|]. split; [exact Hnd|].
  change ((([] ++ r) ++ t) ++ l) with ((r ++ t) ++ l).
  rewrite <- (app_assoc r t l).
  unfold save_output.
  set (all_ideas := r ++ t ++ l).
  pose proof (save_output_loop_empty asked []) as Hempty.
  pose proof (fun idea ideas => save_output_loop_raises idea ideas asked [])
    as Hraises.
  pose proof (save_output_loop_quiet all_ideas asked []) as Hquiet.
  destruct (save_output_loop all_ideas asked []) as [opened raised] eqn:E.
  cbn [first_failure].
  assert (Hcsv : all_ideas <> [] /\ In "csv"%string asked ->
                 raised = Some "NameError"%string).
  { intros [Hne Hin]. destruct all_ideas as [|idea ideas]; [contradiction|].
    specialize (Hraises idea ideas Hin). rewrite E in Hraises. exact Hraises. }
  assert (Hnone : all_ideas = [] \/ ~ In "csv"%string asked -> raised = None).
  { intros [Hnil | Hno].
    - rewrite Hnil in E. rewrite E in Hempty. exact Hempty.
    - exact (Hquiet Hno). }
  assert (Hdec : (all_ideas <> [] /\ In "csv"%string asked)
                 \/ (all_ideas = [] \/ ~ In "csv"%string asked)).
  { destruct (In_dec Stdlib.Strings.String.string_dec "csv"%string asked);
      [|right; right; assumption].
    destruct all_ideas; [right; left; reflexivity|].
    left. split; [discriminate|assumption]. }
  destruct Hdec as [Hc | Hq].
  - rewrite (Hcsv Hc). cbn [ret fst snd]. unfold ret. cbn [fst snd].
    split; [reflexivity|]. split; [reflexivity|]. split; [reflexivity|].
    split; [|discriminate]. intros Hq. exfalso.
    destruct Hc as [Hne Hin]. destruct Hq as [Hnil | Hno]; tauto.
  - rewrite (Hnone Hq).
    destruct (print completed_line) as [e1|];
      [|destruct (print (total_line all_ideas)) as [e2|];
        [|destruct (print (formats_line asked)) as [e3|]]];
      unfold ret; cbn [fst snd];
      (split; [reflexivity|]); (split; [reflexivity|]);
      (split; [intros Hc; exfalso; destruct Hc as [Hne Hin];
               destruct Hq as [Hnil | Hno]; tauto|]);
      (split; [reflexivity|]);
      intros ideas Hret; try discriminate.
    injection Hret as <-. reflexivity.
Qed.


(** ** Words before and after cleaning *)

Lemma split_go_count cur s :
  length (split_go cur s)
  = count_words (match cur with [] => false | _ => true end) s.
Proof.
  revert cur. induction s as [|c r IH]; intros cur; simpl.
  - destruct cur; reflexivity.
  - destruct (Unicode.isspace c).
    + destruct cur; simpl; rewrite (IH []); reflexivity.
    + rewrite (IH (c :: cur)). reflexivity.
Qed.

Lemma count_words_thins s t :
  thins s t ->
  forall b b', (b' = true -> b = true) ->
  (count_words b' t <= count_words b s)%nat.
Proof.
  induction 1 as [|c s t _ IH|c s t Hc _ IH]; intros b b' Hb.
  - simpl. destruct b'; [rewrite Hb by reflexivity|]; destruct b; lia.
  - simpl. destruct (Unicode.isspace c).
    + specialize (IH false false (fun H => H)).
      destruct b'; [rewrite Hb by reflexivity|]; destruct b; lia.
    + apply IH. auto.
  - simpl. rewrite Hc. apply IH. auto.
Qed.

Lemma url_char_nonspace c : url_char c = true -> Unicode.isspace c = false.
Proof. destruct c as [[] [] [] [] [] [] [] []]; vm_compute; congruence. Qed.

Lemma sub_url_go_thins s k :
  (k <= run_length s)%nat -> thins s (Re.sub_url_go k s).
Proof.
  revert k. induction s as [|c r IH]; intros k Hk; [destruct k; constructor|].
  assert (Hdrop : forall j, (S j <= run_length (c :: r))%nat ->
                            thins (c :: r) (Re.sub_url_go j r)).
  { intros j Hj. simpl in Hj. destruct (url_char c) eqn:Hc; [|lia].
    apply thins_drop; [apply url_char_nonspace; exact Hc|]. apply IH. lia. }
  destruct k as [|k']; cbn [Re.sub_url_go]; [|apply Hdrop; exact Hk].
  destruct (Re.url_match (c :: r)) as [[|j]|] eqn:Em.
  - apply thins_keep. apply IH. lia.
  - apply Hdrop. apply (url_match_bound _ _ Em).
  - apply thins_keep. apply IH. lia.
Qed.

Lemma kept_of_space c : Unicode.isspace c = true -> Re.kept c = true.
Proof.
  unfold Re.kept. intros ->. rewrite orb_true_r. reflexivity.
Qed.

Lemma sub_special_thins s : thins s (Re.sub_special s).
Proof.
  unfold Re.sub_special. induction s as [|c r IH]; [constructor|].
  simpl. destruct (Re.kept c) eqn:Hk; [apply thins_keep; exact IH|].
  apply thins_drop; [|exact IH].
  destruct (Unicode.isspace c) eqn:Hs; [|reflexivity].
  rewrite (kept_of_space c Hs) in Hk. discriminate.
Qed.

Lemma thins_trans s t u : thins s t -> thins t u -> thins s u.
Proof.
  intros Hst. revert u. induction Hst as [|c s t _ IH|c s t Hc _ IH];
    intros u Htu.
  - exact Htu.
  - inversion Htu as [|? ? u' Hu|? ? ? Hc' Hu]; subst.
    + apply thins_keep. apply IH. exact Hu.
    + apply thins_drop; [exact Hc'|]. apply IH. exact Hu.
  - apply thins_drop; [exact Hc|]. apply IH. exact Htu.
Qed.

(** X14: cleaning never adds a word: [clean_text] only leaves out characters
    that are not white space and then normalises the white space, so the
    cleaned text has at most as many words as the raw text; a candidate with
    fewer than [MIN_WORD_COUNT] words is therefore never admitted by
    [process_ideas]. *)
Theorem clean_text_never_adds_words (polarity : string -> option Q)
    (now : nat -> string) (raw source : string) (rest : list string)
    (i : nat) (acc : list ProcessedIdea) (self : IdeaProcessor) :
  (length (split (clean_text raw)) <= length (split raw))%nat
  /\ ((length (split raw) < SparkScraperConfig.MIN_WORD_COUNT)%nat ->
      process_loop polarity now (raw :: rest) source i acc self
      = process_loop polarity now rest source (S i) acc self).
Proof.
  assert (Hle : (length (split (clean_text raw)) <= length (split raw))%nat).
  { unfold split at 1. rewrite clean_text_chars, length_map.
    rewrite split_chars_join by apply split_chars_words.
    unfold split. rewrite length_map. unfold split_chars.
    rewrite !split_go_count. apply count_words_thins; [|auto].
    eapply thins_trans; [|apply sub_special_thins].
    apply sub_url_go_thins. lia. }
  split; [exact Hle|]. intros Hshort.
  apply process_loop_rejected. left. unfold within_bounds.
  apply andb_false_iff. left. apply Nat.leb_gt. lia.
Qed.

(** X15: the set of seen fingerprints is append-only and the taxonomy is
    fixed: whatever calls are made on a processor, every fingerprint seen
    before is still seen afterwards, and [idea_categories] is unchanged. *)
Theorem seen_ideas_only_grow (polarity : string -> option Q)
    (now : nat -> string) (calls : list call) (self : IdeaProcessor) :
  let self' := snd (lifetime polarity now calls self) in
  seen_ideas self ⊆ seen_ideas self'
  /\ idea_categories self' = idea_categories self.
Proof.
  cbv zeta. split.
  - destruct (lifetime_adds polarity now calls self) as (_ & _ & _ & H).
    exact H.
  - revert self. induction calls as [|c calls IH]; intros self; [reflexivity|].
    cbn [lifetime]. unfold bind, ret.
    assert (Hc : idea_categories (snd (run_call polarity now c self))
                 = idea_categories self).
    { destruct c as [ideas source|idea|idea]; cbn [run_call].
      - unfold process_ideas.
        destruct (process_loop_emits polarity now ideas source 0 [] self)
          as (_ & _ & _ & _ & _ & H). exact H.
      - unfold bind, ret. rewrite filter_idea_unfold.
        destruct (_ && _)%bool; [|reflexivity].
        case_bool_decide; reflexivity.
      - unfold bind, ret. rewrite is_duplicate_unfold.
        case_bool_decide; reflexivity. }
    destruct (run_call polarity now c self) as [out self1]. simpl in Hc.
    specialize (IH self1).
    destruct (lifetime polarity now calls self1) as [outs self2].
    simpl in *. congruence.
Qed.


(** ** Grouping for the markdown report *)

Lemma dict_get_append {V} (d : list (string * list V)) key x key' :
  dict_get (dict_append d key x) key'
  = if bool_decide (key = key') then dict_get d key' ++ [x]
    else dict_get d key'.
Proof.
  induction d as [|[k xs] d IH]; simpl.
  - destruct (decide (key = key')) as [->|Hn].
    + rewrite !bool_decide_eq_true_2 by reflexivity. reflexivity.
    + rewrite !bool_decide_eq_false_2 by exact Hn. reflexivity.
  - destruct (decide (k = key)) as [->|Hk].
    + rewrite (bool_decide_eq_true_2 (key = key)) by reflexivity. simpl.
      destruct (decide (key = key')) as [->|Hn].
      * rewrite !bool_decide_eq_true_2 by reflexivity. reflexivity.
      * rewrite !bool_decide_eq_false_2 by exact Hn. reflexivity.
    + rewrite (bool_decide_eq_false_2 (k = key)) by exact Hk. simpl.
      rewrite IH. destruct (decide (k = key')) as [->|Hk'].
      * rewrite (bool_decide_eq_true_2 (key' = key')) by reflexivity.
        rewrite bool_decide_eq_false_2; [reflexivity|].
        intros ->. apply Hk. reflexivity.
      * rewrite (bool_decide_eq_false_2 (k = key')) by exact Hk'. reflexivity.
Qed.

Lemma dict_keys_append_old {V} (d : list (string * list V)) key x :
  In key (map fst d) -> map fst (dict_append d key x) = map fst d.
Proof.
  induction d as [|[k xs] d IH]; [intros []|]. simpl.
  case_bool_decide as Hk; [reflexivity|].
  intros [H|H]; [contradiction|]. simpl. rewrite IH by exact H. reflexivity.
Qed.

Lemma dict_keys_append_new {V} (d : list (string * list V)) key x :
  ~ In key (map fst d) -> map fst (dict_append d key x) = map fst d ++ [key].
Proof.
  induction d as [|[k xs] d IH]; [reflexivity|]. simpl. intros Hnot.
  case_bool_decide as Hk; [exfalso; apply Hnot; left; exact Hk|].
  simpl. rewrite IH by (intros H; apply Hnot; right; exact H). reflexivity.
Qed.

Lemma dict_keys_append_In {V} (d : list (string * list V)) key x k :
  In k (map fst (dict_append d key x)) <-> In k (map fst d) \/ k = key.
Proof.
  destruct (In_dec Stdlib.Strings.String.string_dec key (map fst d)) as [H|H].
  - rewrite dict_keys_append_old by exact H. split; [auto|].
    intros [Hk | ->]; assumption.
  - rewrite dict_keys_append_new by exact H. rewrite in_app_iff. simpl.
    split.
    + intros [Hk | [<- | []]]; auto.
    + intros [Hk | ->]; auto.
Qed.

Lemma dict_keys_append_NoDup {V} (d : list (string * list V)) key x :
  NoDup (map fst d) -> NoDup (map fst (dict_append d key x)).
Proof.
  intros Hnd.
  destruct (In_dec Stdlib.Strings.String.string_dec key (map fst d)) as [H|H].
  - rewrite dict_keys_append_old by exact H. exact Hnd.
  - rewrite dict_keys_append_new by exact H. apply NoDup_app.
    split; [exact Hnd|]. split; [|repeat constructor; intros Hx; inversion Hx].
    intros k Hk Hk'. apply list_elem_of_In in Hk.
    apply list_elem_of_In in Hk'. destruct Hk' as [<- | []]. contradiction.
Qed.

Lemma dict_entries_append {V} (d : list (string * list V)) key x :
  entries (dict_append d key x) = S (entries d).
Proof.
  unfold entries. induction d as [|[k xs] d IH]; [reflexivity|].
  cbn [dict_append]. case_bool_decide; simpl.
  - rewrite !length_app. simpl. lia.
  - rewrite !length_app, IH. lia.
Qed.

Lemma group_by_source_facts ideas d :
  (NoDup (map fst d) -> NoDup (map fst (group_by_source ideas d)))
  /\ (forall s, In s (map fst (group_by_source ideas d))
                <-> In s (map fst d)
                    \/ exists idea, In idea ideas /\ source idea = s)
  /\ (forall s, dict_get (group_by_source ideas d) s
                = dict_get d s
                  ++ List.filter (fun idea => bool_decide (source idea = s)) ideas)
  /\ entries (group_by_source ideas d) = (entries d + length ideas)%nat.
Proof.
  revert d. induction ideas as [|idea ideas IH]; intros d.
  - simpl. split; [auto|]. split; [|split].
    + intros s. split; [auto|]. intros [H|(x & [] & _)]. exact H.
    + intros s. rewrite app_nil_r. reflexivity.
    + lia.
  - cbn [group_by_source].
    destruct (IH (dict_append d (source idea) idea)) as (Hnd & Hkeys & Hget & Hn).
    split; [|split; [|split]].
    + intros H. apply Hnd, dict_keys_append_NoDup. exact H.
    + intros s. rewrite Hkeys, dict_keys_append_In. split.
      * intros [[H | ->] | (x & Hx & Hs)]; [auto| |].
        -- right. exists idea. split; [left|]; reflexivity.
        -- right. exists x. split; [right; exact Hx|exact Hs].
      * intros [H | (x & [<- | Hx] & Hs)]; [auto|auto|].
        right. exists x. auto.
    + intros s. rewrite Hget, dict_get_append. simpl.
      case_bool_decide; [rewrite <- app_assoc|]; reflexivity.
    + rewrite Hn, dict_entries_append. simpl. lia.
Qed.

(** X16: the grouping by source of [generate_markdown_enhanced]: [by_source]
    has one key for each source that occurs among the ideas and no other,
    the list under a source is the ideas of that source in their order, and
    together the lists hold every idea once. *)
Theorem by_source_partitions (ideas : list ProcessedIdea) :
  let by_source := group_by_source ideas [] in
  NoDup (map fst by_source)
  /\ (forall s, In s (map fst by_source)
                <-> exists idea, In idea ideas /\ source idea = s)
  /\ (forall s, dict_get by_source s
                = List.filter (fun idea => bool_decide (source idea = s)) ideas)
  /\ entries by_source = length ideas.
Proof.
  cbv zeta. destruct (group_by_source_facts ideas []) as (Hnd & Hkeys & Hget & Hn).
  split; [apply Hnd; constructor|]. split; [|split].
  - intros s. rewrite Hkeys. simpl. intuition.
  - exact Hget.
  - exact Hn.
Qed.

Lemma add_to_categories_facts cats idea d :
  (NoDup (map fst d) -> NoDup (map fst (add_to_categories cats idea d)))
  /\ (forall c, In c (map fst (add_to_categories cats idea d))
                <-> In c (map fst d) \/ In c cats)
  /\ entries (add_to_categories cats idea d) = (entries d + length cats)%nat
  /\ (NoDup cats ->
      forall c, dict_get (add_to_categories cats idea d) c
                = dict_get d c ++ (if bool_decide (c ∈ cats) then [idea] else [])).
Proof.
  revert d. induction cats as [|k cats IH]; intros d.
  - cbn [add_to_categories]. split; [auto|].
    split; [simpl; intuition|]. split; [simpl; lia|].
    intros _ c. rewrite bool_decide_eq_false_2 by apply not_elem_of_nil.
    rewrite app_nil_r. reflexivity.
  - cbn [add_to_categories].
    destruct (IH (dict_append d k idea)) as (Hnd & Hkeys & Hn & Hget).
    split; [|split; [|split]].
    + intros H. apply Hnd, dict_keys_append_NoDup. exact H.
    + intros c. rewrite Hkeys, dict_keys_append_In. simpl. intuition.
    + rewrite Hn, dict_entries_append. simpl. lia.
    + intros Hcats c. inversion Hcats as [|? ? Hk Hcats']; subst.
      rewrite (Hget Hcats'), dict_get_append.
      destruct (decide (k = c)) as [<-|Hkc].
      * rewrite (bool_decide_eq_true_2 (k = k)) by reflexivity.
        rewrite (bool_decide_eq_false_2 (k ∈ cats)) by exact Hk.
        rewrite (bool_decide_eq_true_2 (k ∈ k :: cats)) by (left).
        rewrite app_nil_r. reflexivity.
      * rewrite (bool_decide_eq_false_2 (k = c)) by exact Hkc.
        assert (Hiff : c ∈ k :: cats <-> c ∈ cats).
        { rewrite elem_of_cons. intuition congruence. }
        rewrite (bool_decide_ext _ _ Hiff). reflexivity.
Qed.

Lemma group_by_category_facts ideas d :
  (NoDup (map fst d) -> NoDup (map fst (group_by_category ideas d)))
  /\ (forall c, In c (map fst (group_by_category ideas d))
                <-> In c (map fst d)
                    \/ exists idea, In idea ideas /\ In c (categories idea))
  /\ entries (group_by_category ideas d)
     = (entries d + list_sum (map (fun idea => length (categories idea)) ideas))%nat
  /\ (Forall (fun idea => NoDup (categories idea)) ideas ->
      forall c, dict_get (group_by_category ideas d) c
                = dict_get d c
                  ++ List.filter (fun idea => bool_decide (c ∈ categories idea))
                       ideas).
Proof.
  revert d. induction ideas as [|idea ideas IH]; intros d.
  - simpl. split; [auto|]. split; [|split].
    + intros c. split; [auto|]. intros [H|(x & [] & _)]. exact H.
    + lia.
    + intros _ c. rewrite app_nil_r. reflexivity.
  - cbn [group_by_category].
    destruct (IH (add_to_categories (categories idea) idea d))
      as (Hnd & Hkeys & Hn & Hget).
    destruct (add_to_categories_facts (categories idea) idea d)
      as (And & Akeys & An & Aget).
    split; [|split; [|split]].
    + intros H. apply Hnd, And. exact H.
    + intros c. rewrite Hkeys, Akeys. split.
      * intros [[H | H] | (x & Hx & Hc)]; [auto| |].
        -- right. exists idea. split; [left; reflexivity|exact H].
        -- right. exists x. split; [right; exact Hx|exact Hc].
      * intros [H | (x & [<- | Hx] & Hc)]; [auto|auto|].
        right. exists x. auto.
    + rewrite Hn, An. simpl. lia.
    + intros Hall c. inversion Hall as [|? ? Hcats Hall']; subst.
      rewrite (Hget Hall'), (Aget Hcats). simpl.
      case_bool_decide; rewrite <- app_assoc; reflexivity.
Qed.

(** X17: the grouping by category of [generate_markdown_enhanced]:
    [by_category] has one key for each category that some idea of the source
    carries and no other, and an idea is entered once for each category in
    its list, so the headings hold as many entries as the ideas have
    categories in all; when no idea names a category twice, the list under a
    category is the ideas that carry it, in their order. *)
Theorem by_category_lists_each_tag (source_ideas : list ProcessedIdea) :
  let by_category := group_by_category source_ideas [] in
  NoDup (map fst by_category)
  /\ (forall c, In c (map fst by_category)
                <-> exists idea, In idea source_ideas /\ In c (categories idea))
  /\ entries by_category
     = list_sum (map (fun idea => length (categories idea)) source_ideas)
  /\ (Forall (fun idea => NoDup (categories idea)) source_ideas ->
      forall c, dict_get by_category c
                = List.filter (fun idea => bool_decide (c ∈ categories idea))
                    source_ideas).
Proof.
  cbv zeta.
  destruct (group_by_category_facts source_ideas []) as (Hnd & Hkeys & Hn & Hget).
  split; [apply Hnd; constructor|]. split; [|split].
  - intros c. rewrite Hkeys. simpl. intuition.
  - exact Hn.
  - exact Hget.
Qed.

Lemma by_category_lists_each_tag_witness :
  let a := sample_record "A web game for learning" "reddit"
             ["web_app"; "education"; "gaming"] in
  let b := sample_record "A tutorial on the web" "reddit"
             ["web_app"; "education"] in
  dict_get (group_by_category [a; b] []) "education" = [a; b]
  /\ dict_get (group_by_category [a; b] []) "gaming" = [a]
  /\ entries (group_by_category [a; b] []) = 5%nat.
Proof.
  cbv zeta.
  destruct (by_category_lists_each_tag
    [sample_record "A web game for learning" "reddit"
       ["web_app"; "education"; "gaming"];
     sample_record "A tutorial on the web" "reddit"
       ["web_app"; "education"]]) as (_ & _ & Hn & Hget).
  assert (Hnd : Forall (fun idea => NoDup (categories idea))
    [sample_record "A web game for learning" "reddit"
       ["web_app"; "education"; "gaming"];
     sample_record "A tutorial on the web" "reddit"
       ["web_app"; "education"]]).
  { apply (bool_decide_unpack _). vm_compute. exact I. }
  split; [|split].
  - rewrite (Hget Hnd). reflexivity.
  - rewrite (Hget Hnd). reflexivity.
  - rewrite Hn. reflexivity.
Defined.
